(** * Token probability visualizer: response validation and rendering

    A shallow embedding of [src/components/TokenProbabilityVisualizer.tsx]:
    the zod schemas that validate the chat-completion response, the
    [fetchCompletion] handler that stores a validated completion in the
    component state, and [renderTokenColumns], which turns the stored
    completion into one column of alternatives per emitted token. *)

From Stdlib Require Import List String Ascii Bool Arith ZArith.
From Stdlib Require Import Floats.
Import ListNotations.

Set Warnings "-register-all,-inexact-float".
Local Open Scope string_scope.
Local Open Scope list_scope.

(** ** JavaScript values as produced by [response.json()]

    Numbers are IEEE-754 binary64 values, objects are finite maps from
    property names to values (first binding wins in the association list),
    and a property that is absent reads as [undefined], modelled by [None]. *)

Inductive value : Type :=
| VNull : value
| VBool : bool -> value
| VNum : float -> value
| VStr : string -> value
| VArr : list value -> value
| VObj : list (string * value) -> value.

Fixpoint lookup (k : string) (fields : list (string * value)) : option value :=
  match fields with
  | [] => None
  | (k', v) :: rest => if String.eqb k k' then Some v else lookup k rest
  end.

(** [Number.isInteger]: a finite number with no fractional part. *)
Definition Number_isInteger (f : float) : bool :=
  match Prim2SF f with
  | S754_zero _ => true
  | S754_finite _ m e =>
      (0 <=? e)%Z || (Z.land (Zpos m) (Z.ones (- e)) =? 0)%Z
  | S754_infinity _ => false
  | S754_nan => false
  end.

(** ** The part of zod used by the component

    zod's [getParsedType], restricted to what JSON can contain. *)

Inductive ZodParsedType : Type :=
| PString | PNan | PNumber | PBoolean | PNull | PArray | PObject | PUndefined.

Definition getParsedType (data : option value) : ZodParsedType :=
  match data with
  | None => PUndefined
  | Some VNull => PNull
  | Some (VBool _) => PBoolean
  | Some (VNum f) => if PrimFloat.is_nan f then PNan else PNumber
  | Some (VStr _) => PString
  | Some (VArr _) => PArray
  | Some (VObj _) => PObject
  end.

(** A path element is a property name or an array index. *)
Inductive key : Type :=
| KStr : string -> key
| KIdx : nat -> key.

(** A zod issue of code [invalid_type]; the only kind these schemas raise. *)
Record ZodIssue : Type := mkIssue {
  path : list key;
  expected : ZodParsedType;
  received : ZodParsedType
}.

Inductive SafeParseResult (A : Type) : Type :=
| Success (data : A)
| Failure (errors : list ZodIssue).
Arguments Success {A} data.
Arguments Failure {A} errors.

(** The schema constructors the source calls: [z.string()], [z.number()],
    [z.null()], [z.array(s)], [s.nullable()] and [z.object({...})]. *)
Inductive schema : Type :=
| z_string : schema
| z_number : schema
| z_null : schema
| z_array : schema -> schema
| z_nullable : schema -> schema
| z_object : list (string * schema) -> schema.

(** The parsed type a schema asks for before looking any deeper. *)
Fixpoint expected_type (s : schema) : ZodParsedType :=
  match s with
  | z_string => PString
  | z_number => PNumber
  | z_null => PNull
  | z_array _ => PArray
  | z_nullable s' => expected_type s'
  | z_object _ => PObject
  end.

Definition invalid_type (s : schema) (p : list key) (data : option value)
  : SafeParseResult value :=
  Failure [mkIssue p (expected_type s) (getParsedType data)].

(** Merging of the results of the members of an array or object: every
    member is parsed, the issues of all of them are kept in order, and the
    whole is valid only when every member is. *)
Definition merge {A : Type} (r : SafeParseResult A) (rs : SafeParseResult (list A))
  : SafeParseResult (list A) :=
  match r, rs with
  | Success a, Success l => Success (a :: l)
  | Success _, Failure e => Failure e
  | Failure e, Success _ => Failure e
  | Failure e, Failure e' => Failure (e ++ e')
  end.

Definition with_key (k : string) (r : SafeParseResult value)
  : SafeParseResult (string * value) :=
  match r with
  | Success v => Success (k, v)
  | Failure e => Failure e
  end.

Section ParseMembers.
Variable parse_elem : list key -> option value -> SafeParseResult value.
Variable p : list key.

Fixpoint parse_items (i : nat) (items : list value)
  : SafeParseResult (list value) :=
  match items with
  | [] => Success []
  | v :: rest =>
      merge (parse_elem (p ++ [KIdx i]) (Some v)) (parse_items (S i) rest)
  end.
End ParseMembers.

(** [_parse] of each schema class.  An object schema reads one property per
    key of its shape, in the order the shape lists them, and builds a fresh
    object holding exactly those keys (unknown keys are stripped). *)
Fixpoint parse (s : schema) (p : list key) (data : option value) {struct s}
  : SafeParseResult value :=
  match s with
  | z_string =>
      match data with
      | Some (VStr x) => Success (VStr x)
      | _ => invalid_type z_string p data
      end
  | z_number =>
      match data with
      | Some (VNum f) =>
          if PrimFloat.is_nan f then invalid_type z_number p data
          else Success (VNum f)
      | _ => invalid_type z_number p data
      end
  | z_null =>
      match data with
      | Some VNull => Success VNull
      | _ => invalid_type z_null p data
      end
  | z_array elem =>
      match data with
      | Some (VArr items) =>
          match parse_items (parse elem) p 0 items with
          | Success l => Success (VArr l)
          | Failure e => Failure e
          end
      | _ => invalid_type (z_array elem) p data
      end
  | z_nullable inner =>
      match data with
      | Some VNull => Success VNull
      | _ => parse inner p data
      end
  | z_object shape =>
      match data with
      | Some (VObj fields) =>
          let fix parse_shape (sh : list (string * schema))
            : SafeParseResult (list (string * value)) :=
            match sh with
            | [] => Success []
            | (k, sk) :: rest =>
                merge (with_key k (parse sk (p ++ [KStr k]) (lookup k fields)))
                      (parse_shape rest)
            end in
          match parse_shape shape with
          | Success l => Success (VObj l)
          | Failure e => Failure e
          end
      | _ => invalid_type (z_object shape) p data
      end
  end.

Definition safeParse (s : schema) (data : value) : SafeParseResult value :=
  parse s [] (Some data).

(** ** The schemas of the source *)

Definition TopLogProbSchema : schema :=
  z_object [
    ("token", z_string);
    ("logprob", z_number);
    ("bytes", z_nullable (z_array z_number))
  ].

Definition LogProbContentSchema : schema :=
  z_object [
    ("token", z_string);
    ("logprob", z_number);
    ("bytes", z_array z_number);
    ("top_logprobs", z_array TopLogProbSchema)
  ].

Definition MessageSchema : schema :=
  z_object [
    ("role", z_string);
    ("content", z_string)
  ].

Definition ChoiceSchema : schema :=
  z_object [
    ("index", z_number);
    ("message", MessageSchema);
    ("logprobs", z_object [
      ("content", z_array LogProbContentSchema)
    ]);
    ("finish_reason", z_string)
  ].

Definition UsageSchema : schema :=
  z_object [
    ("prompt_tokens", z_number);
    ("completion_tokens", z_number);
    ("total_tokens", z_number)
  ].

Definition ChatCompletionSchema : schema :=
  z_object [
    ("id", z_string);
    ("object", z_string);
    ("created", z_number);
    ("model", z_string);
    ("choices", z_array ChoiceSchema);
    ("usage", UsageSchema);
    ("system_fingerprint", z_null)
  ].

(** ** The inferred types ([z.infer]) and their JavaScript representation

    One record per object schema, with the property names of the source.
    [to_js] is the object a typed value stands for and [of_js] reads a
    parsed object back at its static type. *)

Fixpoint traverse {A : Type} (f : value -> option A) (l : list value)
  : option (list A) :=
  match l with
  | [] => Some []
  | v :: rest =>
      match f v, traverse f rest with
      | Some a, Some l' => Some (a :: l')
      | _, _ => None
      end
  end.

Definition number_of_js (v : value) : option float :=
  match v with VNum f => Some f | _ => None end.

Definition string_of_js (v : value) : option string :=
  match v with VStr x => Some x | _ => None end.

Definition array_of_js {A : Type} (f : value -> option A) (v : value)
  : option (list A) :=
  match v with VArr l => traverse f l | _ => None end.

Definition nullable_of_js {A : Type} (f : value -> option A) (v : value)
  : option (option A) :=
  match v with
  | VNull => Some None
  | _ => match f v with Some a => Some (Some a) | None => None end
  end.

Definition null_of_js (v : value) : option unit :=
  match v with VNull => Some tt | _ => None end.

Definition field {A : Type} (k : string) (f : value -> option A)
  (fields : list (string * value)) : option A :=
  match lookup k fields with
  | Some v => f v
  | None => None
  end.

Definition numbers_to_js (l : list float) : value := VArr (map VNum l).

Module TopLogProb.
Record t : Type := mk {
  token : string;
  logprob : float;
  bytes : option (list float)
}.

Definition to_js (x : t) : value :=
  VObj [
    ("token", VStr (token x));
    ("logprob", VNum (logprob x));
    ("bytes", match bytes x with
              | Some l => numbers_to_js l
              | None => VNull
              end)
  ].

Definition of_js (v : value) : option t :=
  match v with
  | VObj fs =>
      match field "token" string_of_js fs,
            field "logprob" number_of_js fs,
            field "bytes" (nullable_of_js (array_of_js number_of_js)) fs with
      | Some a, Some b, Some c => Some (mk a b c)
      | _, _, _ => None
      end
  | _ => None
  end.
End TopLogProb.

Module LogProbContent.
Record t : Type := mk {
  token : string;
  logprob : float;
  bytes : list float;
  top_logprobs : list TopLogProb.t
}.

Definition to_js (x : t) : value :=
  VObj [
    ("token", VStr (token x));
    ("logprob", VNum (logprob x));
    ("bytes", numbers_to_js (bytes x));
    ("top_logprobs", VArr (map TopLogProb.to_js (top_logprobs x)))
  ].

Definition of_js (v : value) : option t :=
  match v with
  | VObj fs =>
      match field "token" string_of_js fs,
            field "logprob" number_of_js fs,
            field "bytes" (array_of_js number_of_js) fs,
            field "top_logprobs" (array_of_js TopLogProb.of_js) fs with
      | Some a, Some b, Some c, Some d => Some (mk a b c d)
      | _, _, _, _ => None
      end
  | _ => None
  end.
End LogProbContent.

Module Message.
Record t : Type := mk {
  role : string;
  content : string
}.

Definition to_js (x : t) : value :=
  VObj [("role", VStr (role x)); ("content", VStr (content x))].

Definition of_js (v : value) : option t :=
  match v with
  | VObj fs =>
      match field "role" string_of_js fs,
            field "content" string_of_js fs with
      | Some a, Some b => Some (mk a b)
      | _, _ => None
      end
  | _ => None
  end.
End Message.

Module LogProbs.
Record t : Type := mk {
  content : list LogProbContent.t
}.

Definition to_js (x : t) : value :=
  VObj [("content", VArr (map LogProbContent.to_js (content x)))].

Definition of_js (v : value) : option t :=
  match v with
  | VObj fs =>
      match field "content" (array_of_js LogProbContent.of_js) fs with
      | Some a => Some (mk a)
      | None => None
      end
  | _ => None
  end.
End LogProbs.

Module Choice.
Record t : Type := mk {
  index : float;
  message : Message.t;
  logprobs : LogProbs.t;
  finish_reason : string
}.

Definition to_js (x : t) : value :=
  VObj [
    ("index", VNum (index x));
    ("message", Message.to_js (message x));
    ("logprobs", LogProbs.to_js (logprobs x));
    ("finish_reason", VStr (finish_reason x))
  ].

Definition of_js (v : value) : option t :=
  match v with
  | VObj fs =>
      match field "index" number_of_js fs,
            field "message" Message.of_js fs,
            field "logprobs" LogProbs.of_js fs,
            field "finish_reason" string_of_js fs with
      | Some a, Some b, Some c, Some d => Some (mk a b c d)
      | _, _, _, _ => None
      end
  | _ => None
  end.
End Choice.

Module Usage.
Record t : Type := mk {
  prompt_tokens : float;
  completion_tokens : float;
  total_tokens : float
}.

Definition to_js (x : t) : value :=
  VObj [
    ("prompt_tokens", VNum (prompt_tokens x));
    ("completion_tokens", VNum (completion_tokens x));
    ("total_tokens", VNum (total_tokens x))
  ].

Definition of_js (v : value) : option t :=
  match v with
  | VObj fs =>
      match field "prompt_tokens" number_of_js fs,
            field "completion_tokens" number_of_js fs,
            field "total_tokens" number_of_js fs with
      | Some a, Some b, Some c => Some (mk a b c)
      | _, _, _ => None
      end
  | _ => None
  end.
End Usage.

Module ChatCompletion.
Record t : Type := mk {
  id : string;
  object : string;
  created : float;
  model : string;
  choices : list Choice.t;
  usage : Usage.t;
  system_fingerprint : unit
}.

Definition to_js (x : t) : value :=
  VObj [
    ("id", VStr (id x));
    ("object", VStr (object x));
    ("created", VNum (created x));
    ("model", VStr (model x));
    ("choices", VArr (map Choice.to_js (choices x)));
    ("usage", Usage.to_js (usage x));
    ("system_fingerprint", VNull)
  ].

Definition of_js (v : value) : option t :=
  match v with
  | VObj fs =>
      match field "id" string_of_js fs,
            field "object" string_of_js fs,
            field "created" number_of_js fs,
            field "model" string_of_js fs,
            field "choices" (array_of_js Choice.of_js) fs,
            field "usage" Usage.of_js fs,
            field "system_fingerprint" null_of_js fs with
      | Some a, Some b, Some c, Some d, Some e, Some f, Some g =>
          Some (mk a b c d e f g)
      | _, _, _, _, _, _, _ => None
      end
  | _ => None
  end.
End ChatCompletion.

(** [ChatCompletionSchema.safeParse(data)] at its static type: on success
    [completion.data] is the parsed object read as a [ChatCompletion].  The
    inner [None] arm is never taken (lemma [safeParse_typed] below). *)
Definition validate (raw : value) : SafeParseResult ChatCompletion.t :=
  match safeParse ChatCompletionSchema raw with
  | Success v =>
      match ChatCompletion.of_js v with
      | Some c => Success c
      | None => Failure []
      end
  | Failure e => Failure e
  end.

(** ** The component

    The hooks of [TokenProbabilityVisualizer], and the console the handler
    writes to. *)

Inductive console_entry : Type :=
| ErrorParsingCompletion (errors : list ZodIssue)
| ErrorFetchingCompletion (error : string).

Record State : Type := mkState {
  systemPrompt : string;
  userPrompt : string;
  temperature : float;
  apiKey : string;
  topTokens : float;
  completion : option ChatCompletion.t;
  loading : bool;
  console : list console_entry
}.

Definition initialState : State :=
  mkState "" "" 0.7%float "" 5%float None false [].

Definition setCompletion (c : ChatCompletion.t) (st : State) : State :=
  mkState (systemPrompt st) (userPrompt st) (temperature st) (apiKey st)
          (topTokens st) (Some c) (loading st) (console st).

Definition setLoading (b : bool) (st : State) : State :=
  mkState (systemPrompt st) (userPrompt st) (temperature st) (apiKey st)
          (topTokens st) (completion st) b (console st).

Definition console_error (e : console_entry) (st : State) : State :=
  mkState (systemPrompt st) (userPrompt st) (temperature st) (apiKey st)
          (topTokens st) (completion st) (loading st) (console st ++ [e]).

(** What the two awaits of [fetchCompletion] resolve to: [fetch] rejects,
    [response.json()] rejects, or the body parses to [data]. *)
Inductive response : Type :=
| FetchRejected (error : string)
| JsonRejected (error : string)
| Json (data : value).

(** One run of [fetchCompletion] against the answer of the network.  A
    state setter records the new state and returns; the render it schedules
    runs after the handler, so no setter throws into the [try]. *)
Definition fetchCompletion (r : response) (st : State) : State :=
  let st := setLoading true st in
  let st :=
    match r with
    | Json data =>
        match validate data with
        | Success c => setCompletion c st
        | Failure errors => console_error (ErrorParsingCompletion errors) st
        end
    | FetchRejected error => console_error (ErrorFetchingCompletion error) st
    | JsonRejected error => console_error (ErrorFetchingCompletion error) st
    end in
  setLoading false st.

(** *** Rendering *)

(** The number shown for an alternative is computed by the host's [Math.exp]
    and [Number.prototype.toFixed]; the element keeps the expression. *)
Inductive num : Type :=
| Num (f : float)
| Math_exp (x : num)
| Mul (x y : num).

Inductive jsx : Type :=
| div (key : option nat) (className : string) (children : list jsx)
| text (s : string)
| toFixed (x : num) (digits : nat).

(** What a render can throw: the runtime's [TypeError] for reading property
    [reading] of [undefined], or an error raised by a [throw] statement. *)
Inductive exn : Type :=
| TypeError (reading : string)
| Error (message : string).

Inductive js_result (A : Type) : Type :=
| Return (a : A)
| Throw (e : exn).
Arguments Return {A} a.
Arguments Throw {A} e.

(** [Array.prototype.map] with the index passed to the callback. *)
Fixpoint mapi_from {A B : Type} (f : A -> nat -> B) (i : nat) (l : list A)
  : list B :=
  match l with
  | [] => []
  | a :: rest => f a i :: mapi_from f (S i) rest
  end.

Definition mapi {A B : Type} (f : A -> nat -> B) (l : list A) : list B :=
  mapi_from f 0 l.

Definition chosenClass : string := "bg-blue-200".
Definition otherClass : string := "bg-gray-100".

Definition alternativeEntry (token : LogProbContent.t)
  (alt : TopLogProb.t) (i : nat) : jsx :=
  let alternativeToken := TopLogProb.token alt in
  let logprob := TopLogProb.logprob alt in
  div (Some i)
      ("p-2 " ++
       (if String.eqb alternativeToken (LogProbContent.token token)
        then chosenClass else otherClass) ++
       " rounded mb-1 text-sm")
      [ text alternativeToken; text ": ";
        toFixed (Mul (Math_exp (Num logprob)) (Num 100%float)) 3;
        text "%" ].

Definition tokenColumn (token : LogProbContent.t) (index : nat) : jsx :=
  div (Some index) "flex flex-col items-center mb-4"
      (div None "font-bold mb-2" [text (LogProbContent.token token)]
       :: mapi (alternativeEntry token) (LogProbContent.top_logprobs token)).

(** [completion?.choices[0].logprobs.content.map(...)]: [undefined] when no
    completion is held; reading [logprobs] of an absent first choice throws. *)
Definition renderTokenColumns (completion : option ChatCompletion.t)
  : js_result (option (list jsx)) :=
  match completion with
  | None => Return None
  | Some c =>
      match nth_error (ChatCompletion.choices c) 0 with
      | None =>
          Throw (TypeError "logprobs")
      | Some choice =>
          Return (Some (mapi tokenColumn
                          (LogProbs.content (Choice.logprobs choice))))
      end
  end.

(** *** Reading a rendered column back *)

Definition columnHeader (col : jsx) : option string :=
  match col with
  | div _ _ (div _ _ [text t] :: _) => Some t
  | _ => None
  end.

Definition columnAlternatives (col : jsx) : list jsx :=
  match col with
  | div _ _ (_ :: alts) => alts
  | _ => []
  end.

Definition entryToken (entry : jsx) : option string :=
  match entry with
  | div _ _ (text t :: _) => Some t
  | _ => None
  end.

Definition entryLogprob (entry : jsx) : option float :=
  match entry with
  | div _ _ [_; _; toFixed (Mul (Math_exp (Num lp)) _) _; _] => Some lp
  | _ => None
  end.

(** An entry is shown as chosen when it carries the highlight class. *)
Definition isChosen (entry : jsx) : bool :=
  match entry with
  | div _ cls _ => String.eqb cls ("p-2 " ++ chosenClass ++ " rounded mb-1 text-sm")
  | _ => false
  end.

(** *** The numbers the host computes

    [Math.exp] is a function of the host.  ECMA-262 fixes its result on NaN,
    the infinities and the zeros and leaves the rest to the implementation. *)






(** * Vocabulary of the properties *)

(** ** Where the validator looks *)

(** The recursion of an object schema over its shape, as a function of its
    own (see [parse_object_eq]). *)
Fixpoint parse_shape (p : list key) (fields : list (string * value))
  (sh : list (string * schema)) : SafeParseResult (list (string * value)) :=
  match sh with
  | [] => Success []
  | (k, sk) :: rest =>
      merge (with_key k (parse sk (p ++ [KStr k]) (lookup k fields)))
            (parse_shape p fields rest)
  end.

Definition is_nullable (s : schema) : bool :=
  match s with z_nullable _ => true | _ => false end.

Fixpoint unwrap (s : schema) : schema :=
  match s with z_nullable s' => unwrap s' | _ => s end.

Fixpoint shape_lookup (k : string) (shape : list (string * schema))
  : option schema :=
  match shape with
  | [] => None
  | (k', s) :: rest => if String.eqb k k' then Some s else shape_lookup k rest
  end.

(** The schema that governs path [q] below schema [s]. *)
Fixpoint schema_at (s : schema) (q : list key) : option schema :=
  match q with
  | [] => Some s
  | KStr k :: q' =>
      match unwrap s with
      | z_object shape =>
          match shape_lookup k shape with
          | Some sk => schema_at sk q'
          | None => None
          end
      | _ => None
      end
  | KIdx i :: q' =>
      match unwrap s with
      | z_array elem => schema_at elem q'
      | _ => None
      end
  end.

(** The datum found at path [q] below [d]: [Some None] is a property that is
    absent from an object that is there; [None] means the path leaves the
    document earlier (or runs past the end of an array). *)
Fixpoint reach (d : option value) (q : list key) : option (option value) :=
  match q with
  | [] => Some d
  | KStr k :: q' =>
      match d with
      | Some (VObj fields) => reach (lookup k fields) q'
      | _ => None
      end
  | KIdx i :: q' =>
      match d with
      | Some (VArr items) =>
          match nth_error items i with
          | Some v => reach (Some v) q'
          | None => None
          end
      | _ => None
      end
  end.

(** The [system_fingerprint] property of a document, if it has one. *)
Definition fingerprint (raw : value) : option value :=
  match raw with
  | VObj fields => lookup "system_fingerprint" fields
  | _ => None
  end.

(** ** Violations *)

(** [violation s d q e r]: following path [q] from [d] along schema [s] one
    reaches a datum of parsed type [r] where the schema asks for [e]. *)
Inductive violation
  : schema -> option value -> list key -> ZodParsedType -> ZodParsedType -> Prop :=
| violation_here s d :
    is_nullable s = false ->
    getParsedType d <> expected_type s ->
    violation s d [] (expected_type s) (getParsedType d)
| violation_nullable s d q e r :
    d <> Some VNull ->
    violation s d q e r ->
    violation (z_nullable s) d q e r
| violation_item s items i v q e r :
    nth_error items i = Some v ->
    violation s (Some v) q e r ->
    violation (z_array s) (Some (VArr items)) (KIdx i :: q) e r
| violation_field shape fields k sk q e r :
    In (k, sk) shape ->
    violation sk (lookup k fields) q e r ->
    violation (z_object shape) (Some (VObj fields)) (KStr k :: q) e r.

(** The shape a value actually has, and the shape a schema expects, as the
    issues are to name them. *)
Inductive actual_shape : value -> ZodParsedType -> Prop :=
| actual_null : actual_shape VNull PNull
| actual_boolean b : actual_shape (VBool b) PBoolean
| actual_number f : PrimFloat.is_nan f = false -> actual_shape (VNum f) PNumber
| actual_nan f : PrimFloat.is_nan f = true -> actual_shape (VNum f) PNan
| actual_string x : actual_shape (VStr x) PString
| actual_array items : actual_shape (VArr items) PArray
| actual_object fields : actual_shape (VObj fields) PObject.

Inductive expected_shape : schema -> ZodParsedType -> Prop :=
| expected_string : expected_shape z_string PString
| expected_number : expected_shape z_number PNumber
| expected_null : expected_shape z_null PNull
| expected_array elem : expected_shape (z_array elem) PArray
| expected_object shape : expected_shape (z_object shape) PObject
| expected_nullable inner e :
    expected_shape inner e -> expected_shape (z_nullable inner) e.

(** The documents of the schema rejection property, each with the issue that
    names its defect: a property the schema has at path [q] is absent, which
    reads as [undefined] where the schema expects [e]; or
    [system_fingerprint] holds a value of shape [r] other than [null], where
    [null] is expected. *)
Inductive rejected_document (raw : value) : ZodIssue -> Prop :=
| missing_required_field q leaf e :
    schema_at ChatCompletionSchema q = Some leaf ->
    expected_shape leaf e ->
    reach (Some raw) q = Some None ->
    rejected_document raw (mkIssue q e PUndefined)
| fingerprint_not_null v r :
    fingerprint raw = Some v ->
    v <> VNull ->
    actual_shape v r ->
    rejected_document raw (mkIssue [KStr "system_fingerprint"] PNull r).

(** The paths of the fields the data model calls integers: [created], the
    three [usage] counters and the elements of an emitted token's [bytes]. *)
Inductive integer_field : list key -> Prop :=
| integer_created : integer_field [KStr "created"]
| integer_usage k :
    In k ["prompt_tokens"; "completion_tokens"; "total_tokens"] ->
    integer_field [KStr "usage"; KStr k]
| integer_byte i j n :
    integer_field [KStr "choices"; KIdx i; KStr "logprobs"; KStr "content";
                   KIdx j; KStr "bytes"; KIdx n].

(** ** Static types *)

Definition typed (s : schema) {A : Type}
  (of_js : value -> option A) (to_js : A -> value) : Prop :=
  forall p d v, parse s p d = Success v ->
    exists c, of_js v = Some c /\ to_js c = v.

Definition nullable_to_js {A : Type} (g : A -> value) (o : option A) : value :=
  match o with Some a => g a | None => VNull end.

(** ** The data model's constraints

    Modelled from the spec: the source states no constraint beyond the
    schemas.  What the data model asks of a completion beyond its static type:
    log-probabilities at most zero, byte values integral and within
    [0, 255], counters and indices integral and not negative, [created]
    integral, and at least one choice. *)

Definition nonpositive (f : float) : bool := (f <=? 0)%float.

Definition natural (f : float) : bool :=
  Number_isInteger f && (0 <=? f)%float.

Definition byte (f : float) : bool := natural f && (f <=? 255)%float.

Definition TopAlternative_ok (a : TopLogProb.t) : bool :=
  nonpositive (TopLogProb.logprob a) &&
  match TopLogProb.bytes a with
  | Some l => forallb byte l
  | None => true
  end.

Definition EmittedToken_ok (t : LogProbContent.t) : bool :=
  nonpositive (LogProbContent.logprob t) &&
  forallb byte (LogProbContent.bytes t) &&
  forallb TopAlternative_ok (LogProbContent.top_logprobs t).

Definition Choice_ok (c : Choice.t) : bool :=
  natural (Choice.index c) &&
  forallb EmittedToken_ok (LogProbs.content (Choice.logprobs c)).

Definition Usage_ok (u : Usage.t) : bool :=
  natural (Usage.prompt_tokens u) &&
  natural (Usage.completion_tokens u) &&
  natural (Usage.total_tokens u).

Definition Completion_ok (c : ChatCompletion.t) : bool :=
  Number_isInteger (ChatCompletion.created c) &&
  negb (Nat.eqb (List.length (ChatCompletion.choices c)) 0) &&
  forallb Choice_ok (ChatCompletion.choices c) &&
  Usage_ok (ChatCompletion.usage c).

(** Modelled from the spec: the source has no serializer.  The document a
    typed completion is sent as is the object it stands for, [to_js]. *)
Definition serialize (c : ChatCompletion.t) : value := ChatCompletion.to_js c.

(** ** Sample documents *)

Definition sampleToken : LogProbContent.t :=
  LogProbContent.mk "Hi" (-0.105)%float [72%float; 105%float]
    [ TopLogProb.mk "Hi" (-0.105)%float (Some [72%float; 105%float]);
      TopLogProb.mk "Hello" (-2.303)%float None ].

Definition sampleChoice : Choice.t :=
  Choice.mk 0%float (Message.mk "assistant" "Hi")
            (LogProbs.mk [sampleToken]) "stop".

Definition sampleUsage : Usage.t := Usage.mk 12%float 1%float 13%float.

Definition sampleCompletion : ChatCompletion.t :=
  ChatCompletion.mk "chatcmpl-1" "chat.completion" 1700000000%float
    "gpt-3.5-turbo" [sampleChoice] sampleUsage tt.

(** A completion that carries no choice at all. *)
Definition noChoiceCompletion : ChatCompletion.t :=
  ChatCompletion.mk "chatcmpl-2" "chat.completion" 1700000000%float
    "gpt-3.5-turbo" [] sampleUsage tt.

(** A completion whose first choice emitted no token. *)
Definition noTokenCompletion : ChatCompletion.t :=
  ChatCompletion.mk "chatcmpl-3" "chat.completion" 1700000000%float
    "gpt-3.5-turbo"
    [Choice.mk 0%float (Message.mk "assistant" "") (LogProbs.mk []) "stop"]
    sampleUsage tt.

(** A completion whose numbers are not integers. *)
Definition fractionalCompletion : ChatCompletion.t :=
  ChatCompletion.mk "chatcmpl-4" "chat.completion" 1.5%float
    "gpt-3.5-turbo"
    [Choice.mk 0%float (Message.mk "assistant" "Hi")
       (LogProbs.mk
          [LogProbContent.mk "Hi" (-0.105)%float [72.5%float] []])
       "stop"]
    (Usage.mk 0.5%float 0.25%float 0.75%float) tt.

(** The sample document without [usage.total_tokens]. *)
Definition missingTotalTokens : value :=
  VObj [
    ("id", VStr "chatcmpl-5");
    ("object", VStr "chat.completion");
    ("created", VNum 1700000000%float);
    ("model", VStr "gpt-3.5-turbo");
    ("choices", VArr [Choice.to_js sampleChoice]);
    ("usage", VObj [("prompt_tokens", VNum 12%float);
                    ("completion_tokens", VNum 1%float)]);
    ("system_fingerprint", VNull)
  ].

(** The sample document with a fingerprint string. *)
Definition fingerprinted : value :=
  VObj [
    ("id", VStr "chatcmpl-6");
    ("object", VStr "chat.completion");
    ("created", VNum 1700000000%float);
    ("model", VStr "gpt-3.5-turbo");
    ("choices", VArr [Choice.to_js sampleChoice]);
    ("usage", Usage.to_js sampleUsage);
    ("system_fingerprint", VStr "fp_44709d6fcb")
  ].

(** The sample document with [created] given as a string. *)
Definition createdAsString : value :=
  VObj [
    ("id", VStr "chatcmpl-7");
    ("object", VStr "chat.completion");
    ("created", VStr "1700000000");
    ("model", VStr "gpt-3.5-turbo");
    ("choices", VArr [Choice.to_js sampleChoice]);
    ("usage", Usage.to_js sampleUsage);
    ("system_fingerprint", VNull)
  ].





(** ** Further vocabulary *)

(** The issues a result carries ([error.errors]; none on success). *)
Definition issues {A : Type} (r : SafeParseResult A) : list ZodIssue :=
  match r with
  | Success _ => []
  | Failure e => e
  end.

(** The shape of an object schema, and the property names it reads. *)
Definition shape_of (s : schema) : list (string * schema) :=
  match s with
  | z_object shape => shape
  | _ => []
  end.

Definition shape_keys (s : schema) : list string := map fst (shape_of s).

(** No number inside the value is NaN. *)
Fixpoint no_nan (v : value) : bool :=
  match v with
  | VNum f => negb (PrimFloat.is_nan f)
  | VArr items => forallb no_nan items
  | VObj fields => forallb (fun kv => no_nan (snd kv)) fields
  | _ => true
  end.

(** The leaves of a schema: strings, numbers and [null], nullable or not. *)
Definition is_leaf (s : schema) : bool :=
  match unwrap s with
  | z_string | z_number | z_null => true
  | _ => false
  end.

(** Several fetches in a row, each run to its end before the next. *)
Definition run (rs : list response) (st : State) : State :=
  fold_left (fun st r => fetchCompletion r st) rs st.

(** The held completion, if any, is itself a document the schema accepts. *)
Definition holds_valid (st : State) : Prop :=
  match completion st with
  | None => True
  | Some c => validate (serialize c) = Success c
  end.

(** The [key] of a rendered element. *)
Definition elementKey (e : jsx) : option nat :=
  match e with
  | div k _ _ => k
  | _ => None
  end.

(** Induction over schemas that reaches the members of an object shape. *)
Section SchemaInduction.
Variable P : schema -> Prop.
Hypothesis P_string : P z_string.
Hypothesis P_number : P z_number.
Hypothesis P_null : P z_null.
Hypothesis P_array : forall elem, P elem -> P (z_array elem).
Hypothesis P_nullable : forall inner, P inner -> P (z_nullable inner).
Hypothesis P_object :
  forall shape, Forall (fun ks => P (snd ks)) shape -> P (z_object shape).

Fixpoint schema_induction (s : schema) : P s :=
  match s with
  | z_string => P_string
  | z_number => P_number
  | z_null => P_null
  | z_array elem => P_array elem (schema_induction elem)
  | z_nullable inner => P_nullable inner (schema_induction inner)
  | z_object shape =>
      P_object shape
        ((fix members (sh : list (string * schema))
            : Forall (fun ks => P (snd ks)) sh :=
            match sh with
            | [] => Forall_nil _
            | ks :: rest =>
                Forall_cons ks (schema_induction (snd ks)) (members rest)
            end) shape)
  end.
End SchemaInduction.

(** What a failed parse of schema [s] must look like: it carries an issue,
    and each issue it carries is a violation found below the datum. *)
Definition failure_spec (s : schema) : Prop :=
  forall p d errors,
    parse s p d = Failure errors ->
    errors <> [] /\
    forall x, In x errors ->
      exists q e r, x = mkIssue (p ++ q) e r /\ violation s d q e r.

(** A response as the API sends it, with properties the schemas do not
    name; it validates to [sampleCompletion]. *)
Definition sampleResponse : value :=
  VObj [
    ("id", VStr "chatcmpl-1");
    ("object", VStr "chat.completion");
    ("created", VNum 1700000000%float);
    ("model", VStr "gpt-3.5-turbo");
    ("choices", VArr [
       VObj [
         ("index", VNum 0%float);
         ("message", VObj [("role", VStr "assistant");
                           ("content", VStr "Hi");
                           ("refusal", VNull)]);
         ("logprobs", VObj [
            ("content", VArr [LogProbContent.to_js sampleToken]);
            ("refusal", VNull)]);
         ("finish_reason", VStr "stop")
       ]]);
    ("usage", VObj [("prompt_tokens", VNum 12%float);
                    ("completion_tokens", VNum 1%float);
                    ("total_tokens", VNum 13%float);
                    ("prompt_tokens_details", VObj [])]);
    ("service_tier", VStr "default");
    ("system_fingerprint", VNull)
  ].

(** What the renderer reads of an emitted token: its text, and the text and
    log-probability of each of its alternatives. *)
Definition shown (t : LogProbContent.t)
  : string * list (string * float) :=
  (LogProbContent.token t,
   map (fun a => (TopLogProb.token a, TopLogProb.logprob a))
       (LogProbContent.top_logprobs t)).

(** Whether a response makes [fetchCompletion] store a completion. *)
Definition stores (r : response) : bool :=
  match r with
  | Json data =>
      match validate data with
      | Success _ => true
      | Failure _ => false
      end
  | FetchRejected _ => false
  | JsonRejected _ => false
  end.
(** * Properties *)

(** ** Unfolding [parse] *)

Lemma parse_object_eq (shape : list (string * schema)) (p : list key)
  (fields : list (string * value)) :
  parse (z_object shape) p (Some (VObj fields)) =
  match parse_shape p fields shape with
  | Success l => Success (VObj l)
  | Failure e => Failure e
  end.
Proof.
  simpl.
  match goal with
  | |- match ?a with _ => _ end = match ?b with _ => _ end =>
      assert (E : a = b); [| rewrite E; reflexivity]
  end.
  induction shape as [| [k sk] rest IH]; simpl; [reflexivity |].
  rewrite IH. reflexivity.
Qed.

Lemma parse_array_eq (elem : schema) (p : list key) (items : list value) :
  parse (z_array elem) p (Some (VArr items)) =
  match parse_items (parse elem) p 0 items with
  | Success l => Success (VArr l)
  | Failure e => Failure e
  end.
Proof. reflexivity. Qed.

Lemma merge_success {A : Type} (r : SafeParseResult A)
  (rs : SafeParseResult (list A)) (l : list A) :
  merge r rs = Success l ->
  exists a l', r = Success a /\ rs = Success l' /\ l = a :: l'.
Proof.
  destruct r as [a | e], rs as [l' | e']; simpl; intro H; inversion H.
  exists a, l'. auto.
Qed.

Lemma merge_failure_l {A : Type} (e : list ZodIssue)
  (rs : SafeParseResult (list A)) (x : ZodIssue) :
  In x e ->
  exists e', merge (@Failure A e) rs = Failure e' /\ In x e'.
Proof.
  intros Hin. destruct rs as [l0 | e2]; simpl.
  - exists e. auto.
  - exists (e ++ e2). split; [reflexivity | apply in_or_app; auto].
Qed.

Lemma merge_failure_r {A : Type} (r : SafeParseResult A)
  (e : list ZodIssue) (x : ZodIssue) :
  In x e ->
  exists e', merge r (Failure e) = Failure e' /\ In x e'.
Proof.
  intros Hin. destruct r as [a | e1]; simpl.
  - exists e. auto.
  - exists (e1 ++ e). split; [reflexivity | apply in_or_app; auto].
Qed.

(** ** Violations and the issues that report them *)

Lemma parse_items_reports (f : list key -> option value -> SafeParseResult value)
  (p : list key) (items : list value) (i : nat) (v : value) (x : ZodIssue) :
  nth_error items i = Some v ->
  forall i0,
  (exists e, f (p ++ [KIdx (i0 + i)]) (Some v) = Failure e /\ In x e) ->
  exists e, parse_items f p i0 items = Failure e /\ In x e.
Proof.
  revert i. induction items as [| w rest IH]; intros i Hnth i0 Hf.
  - destruct i; discriminate.
  - destruct i as [| i]; simpl in Hnth |- *.
    + inversion Hnth; subst w. rewrite Nat.add_0_r in Hf.
      destruct Hf as [e [-> Hin]]. now apply merge_failure_l.
    + destruct (IH i Hnth (S i0)) as [e [-> Hin]].
      * now rewrite Nat.add_succ_comm.
      * now apply merge_failure_r.
Qed.

Lemma parse_shape_reports (p : list key) (fields : list (string * value))
  (shape : list (string * schema)) (k : string) (sk : schema) (x : ZodIssue) :
  In (k, sk) shape ->
  (exists e, parse sk (p ++ [KStr k]) (lookup k fields) = Failure e /\ In x e) ->
  exists e, parse_shape p fields shape = Failure e /\ In x e.
Proof.
  induction shape as [| [k' s'] rest IH]; intros Hin Hf; [destruct Hin |].
  simpl. destruct Hin as [Heq | Hin].
  - inversion Heq; subst k' s'. destruct Hf as [e [-> Hx]].
    simpl. now apply merge_failure_l.
  - destruct (IH Hin Hf) as [e [-> Hx]]. now apply merge_failure_r.
Qed.

Lemma violation_reported (s : schema) (d : option value) (q : list key)
  (e r : ZodParsedType) :
  violation s d q e r ->
  forall p, exists errors,
    parse s p d = Failure errors /\ In (mkIssue (p ++ q) e r) errors.
Proof.
  induction 1 as [s d Hn Hty | s d q e r Hd _ IH
                 | s items i v q e r Hnth _ IH
                 | shape fields k sk q e r Hin _ IH]; intro p.
  - rewrite app_nil_r.
    exists [mkIssue p (expected_type s) (getParsedType d)].
    split; [| now left].
    destruct s; try discriminate Hn;
      destruct d as [[| b | f | x | vs | fs] |]; simpl in *;
      try reflexivity; try (exfalso; apply Hty; reflexivity).
    unfold invalid_type; simpl.
    destruct (PrimFloat.is_nan f); [reflexivity | exfalso; now apply Hty].
  - destruct (IH p) as [errors [Hp Hx]]. exists errors. split; [| exact Hx].
    destruct d as [[| b | f | x | vs | fs] |]; simpl; try exact Hp.
    now exfalso.
  - rewrite parse_array_eq.
    destruct (parse_items_reports (parse s) p items i v
                (mkIssue (p ++ KIdx i :: q) e r) Hnth 0) as [errors [-> Hx]].
    + destruct (IH (p ++ [KIdx i])) as [errors [Hp Hx]].
      exists errors. split; [exact Hp |].
      now rewrite <- app_assoc in Hx.
    + exists errors. auto.
  - rewrite parse_object_eq.
    destruct (parse_shape_reports p fields shape k sk
                (mkIssue (p ++ KStr k :: q) e r) Hin) as [errors [-> Hx]].
    + destruct (IH (p ++ [KStr k])) as [errors [Hp Hx]].
      exists errors. split; [exact Hp |].
      now rewrite <- app_assoc in Hx.
    + exists errors. auto.
Qed.

Lemma validate_failure (raw : value) (errors : list ZodIssue) :
  safeParse ChatCompletionSchema raw = Failure errors ->
  validate raw = Failure errors.
Proof. unfold validate. now intros ->. Qed.

(** ** A successful parse has the inferred static type *)

Lemma typed_string : typed z_string string_of_js VStr.
Proof.
  intros p [[| b | f | x | vs | fs] |] v H; try discriminate H.
  inversion H. exists x. auto.
Qed.

Lemma typed_number : typed z_number number_of_js VNum.
Proof.
  intros p [[| b | f | x | vs | fs] |] v H; try discriminate H.
  simpl in H. destruct (PrimFloat.is_nan f); [discriminate H |].
  inversion H. exists f. auto.
Qed.

Lemma typed_null : typed z_null null_of_js (fun _ : unit => VNull).
Proof.
  intros p [[| b | f | x | vs | fs] |] v H; try discriminate H.
  inversion H. exists tt. auto.
Qed.

Lemma parse_items_typed {A : Type} (s : schema)
  (f : value -> option A) (g : A -> value) (p : list key) :
  typed s f g ->
  forall items i l, parse_items (parse s) p i items = Success l ->
    exists cs, traverse f l = Some cs /\ map g cs = l.
Proof.
  intros Hs. induction items as [| v rest IH]; intros i l H; simpl in H.
  - inversion H. exists []. auto.
  - apply merge_success in H as (a & l' & Ha & Hl & ->).
    destruct (Hs _ _ _ Ha) as (c & Hc & <-).
    destruct (IH _ _ Hl) as (cs & Hcs & <-).
    exists (c :: cs). simpl. rewrite Hc, Hcs. auto.
Qed.

Lemma typed_array {A : Type} (s : schema)
  (f : value -> option A) (g : A -> value) :
  typed s f g ->
  typed (z_array s) (array_of_js f) (fun l => VArr (map g l)).
Proof.
  intros Hs p [[| b | x | y | vs | fs] |] v H; try discriminate H.
  rewrite parse_array_eq in H.
  destruct (parse_items _ _ _ _) as [l | e] eqn:E; inversion H; subst v.
  destruct (parse_items_typed s f g p Hs _ _ _ E) as (cs & Hcs & <-).
  exists cs. auto.
Qed.

Lemma typed_nullable {A : Type} (s : schema)
  (f : value -> option A) (g : A -> value) :
  typed s f g ->
  typed (z_nullable s) (nullable_of_js f) (nullable_to_js g).
Proof.
  intros Hs p d v H.
  assert (Hv : v = VNull \/ parse s p d = Success v).
  { destruct d as [[| b | x | y | vs | fs] |]; simpl in H; auto.
    inversion H. auto. }
  destruct Hv as [-> | Hv].
  - exists None. auto.
  - destruct (Hs _ _ _ Hv) as (c & Hc & <-).
    destruct (g c) eqn:Eg.
    + exists None. auto.
    + exists (Some c). simpl. rewrite Hc, Eg. auto.
    + exists (Some c). simpl. rewrite Hc, Eg. auto.
    + exists (Some c). simpl. rewrite Hc, Eg. auto.
    + exists (Some c). simpl. rewrite Hc, Eg. auto.
    + exists (Some c). simpl. rewrite Hc, Eg. auto.
Qed.

Lemma with_key_success (k : string) (r : SafeParseResult value)
  (a : string * value) :
  with_key k r = Success a -> exists v, r = Success v /\ a = (k, v).
Proof.
  destruct r as [v | e]; simpl; intro H; inversion H. exists v. auto.
Qed.

(** Splits the successful parse of an object into that of its properties. *)
Ltac object_fields H :=
  match type of H with
  | parse _ _ ?d = Success _ =>
      destruct d as [[| ? | ? | ? | ? | ?] |]; try discriminate H
  end;
  rewrite parse_object_eq in H;
  match type of H with
  | match ?x with _ => _ end = _ =>
      let E := fresh "E" in
      destruct x eqn:E; inversion H; subst; clear H;
      cbn [parse_shape] in E;
      repeat (let Ea := fresh "Ea" in
              apply merge_success in E as (? & ? & Ea & E & ->);
              apply with_key_success in Ea as (? & Ea & ->));
      inversion E; subst; clear E
  end.

Ltac use_typed L H :=
  let Hof := fresh "Hof" in
  let Hto := fresh "Hto" in
  destruct (L _ _ _ H) as (? & Hof & Hto); clear H.

Ltac close_typed :=
  unfold field; cbn [lookup String.eqb Ascii.eqb Bool.eqb];
  repeat match goal with
         | Hof : _ = Some _ |- _ => rewrite Hof; clear Hof
         end;
  eexists; split; [reflexivity |];
  repeat match goal with
         | Hto : _ = ?v |- _ => is_var v; subst v
         end;
  reflexivity.

Lemma TopLogProb_typed :
  typed TopLogProbSchema TopLogProb.of_js TopLogProb.to_js.
Proof.
  intros p d v H. unfold TopLogProbSchema in H. object_fields H.
  use_typed typed_string Ea.
  use_typed typed_number Ea0.
  use_typed (typed_nullable _ _ _ (typed_array _ _ _ typed_number)) Ea1.
  unfold TopLogProb.of_js. close_typed.
Qed.

Lemma LogProbContent_typed :
  typed LogProbContentSchema LogProbContent.of_js LogProbContent.to_js.
Proof.
  intros p d v H. unfold LogProbContentSchema in H. object_fields H.
  use_typed typed_string Ea.
  use_typed typed_number Ea0.
  use_typed (typed_array _ _ _ typed_number) Ea1.
  use_typed (typed_array _ _ _ TopLogProb_typed) Ea2.
  unfold LogProbContent.of_js. close_typed.
Qed.

Lemma Message_typed : typed MessageSchema Message.of_js Message.to_js.
Proof.
  intros p d v H. unfold MessageSchema in H. object_fields H.
  use_typed typed_string Ea.
  use_typed typed_string Ea0.
  unfold Message.of_js. close_typed.
Qed.

Lemma LogProbs_typed :
  typed (z_object [("content", z_array LogProbContentSchema)])
        LogProbs.of_js LogProbs.to_js.
Proof.
  intros p d v H. object_fields H.
  use_typed (typed_array _ _ _ LogProbContent_typed) Ea.
  unfold LogProbs.of_js. close_typed.
Qed.

Lemma Choice_typed : typed ChoiceSchema Choice.of_js Choice.to_js.
Proof.
  intros p d v H. unfold ChoiceSchema in H. object_fields H.
  use_typed typed_number Ea.
  use_typed Message_typed Ea0.
  use_typed LogProbs_typed Ea1.
  use_typed typed_string Ea2.
  unfold Choice.of_js. close_typed.
Qed.

Lemma Usage_typed : typed UsageSchema Usage.of_js Usage.to_js.
Proof.
  intros p d v H. unfold UsageSchema in H. object_fields H.
  use_typed typed_number Ea.
  use_typed typed_number Ea0.
  use_typed typed_number Ea1.
  unfold Usage.of_js. close_typed.
Qed.

Lemma ChatCompletion_typed :
  typed ChatCompletionSchema ChatCompletion.of_js ChatCompletion.to_js.
Proof.
  intros p d v H. unfold ChatCompletionSchema in H. object_fields H.
  use_typed typed_string Ea.
  use_typed typed_string Ea0.
  use_typed typed_number Ea1.
  use_typed typed_string Ea2.
  use_typed (typed_array _ _ _ Choice_typed) Ea3.
  use_typed Usage_typed Ea4.
  use_typed typed_null Ea5.
  unfold ChatCompletion.of_js. close_typed.
Qed.

(** [validate] succeeds exactly when [safeParse] does, with the same data. *)
Lemma safeParse_typed (raw v : value) :
  safeParse ChatCompletionSchema raw = Success v ->
  exists c, validate raw = Success c /\ ChatCompletion.to_js c = v.
Proof.
  intro H. unfold validate. rewrite H.
  destruct (ChatCompletion_typed _ _ _ H) as (c & -> & Hto).
  exists c. auto.
Qed.

Lemma validate_success (raw : value) (c : ChatCompletion.t) :
  validate raw = Success c ->
  safeParse ChatCompletionSchema raw = Success (ChatCompletion.to_js c).
Proof.
  unfold validate.
  destruct (safeParse ChatCompletionSchema raw) as [v | e] eqn:E;
    [| discriminate].
  destruct (ChatCompletion_typed _ _ _ E) as (c' & -> & <-).
  intro H. inversion H. reflexivity.
Qed.

Lemma validate_failure_inv (raw : value) (errors : list ZodIssue) :
  validate raw = Failure errors ->
  safeParse ChatCompletionSchema raw = Failure errors.
Proof.
  unfold validate.
  destruct (safeParse ChatCompletionSchema raw) as [v | e] eqn:E.
  - destruct (ChatCompletion_typed _ _ _ E) as (c & -> & _). discriminate.
  - intro H. inversion H. reflexivity.
Qed.

(** ** From a defect of the document to a violation *)

Lemma shape_lookup_In (k : string) (shape : list (string * schema))
  (s : schema) :
  shape_lookup k shape = Some s -> In (k, s) shape.
Proof.
  induction shape as [| [k' s'] rest IH]; simpl; [discriminate |].
  destruct (String.eqb k k') eqn:E.
  - apply String.eqb_eq in E. intro H. inversion H. subst. now left.
  - intro H. right. auto.
Qed.

Lemma expected_type_defined (s : schema) : expected_type s <> PUndefined.
Proof. induction s; simpl; try discriminate; assumption. Qed.

Lemma violation_unwrap (s : schema) (d : option value) (q : list key)
  (e r : ZodParsedType) :
  d <> Some VNull ->
  violation (unwrap s) d q e r -> violation s d q e r.
Proof.
  intro Hd. induction s; simpl; auto.
  intro H. apply violation_nullable; auto.
Qed.

Lemma violation_leaf (s : schema) (d : option value) :
  d <> Some VNull \/ is_nullable s = false ->
  getParsedType d <> expected_type s ->
  violation s d [] (expected_type s) (getParsedType d).
Proof.
  induction s; intros Hd Hty; try (now apply violation_here).
  simpl in *. destruct Hd as [Hd | Hd]; [| discriminate Hd].
  apply violation_nullable; auto.
Qed.

Lemma mismatch_violation (q : list key) :
  forall (s : schema) (d d' : option value) (leaf : schema),
  schema_at s q = Some leaf ->
  reach d q = Some d' ->
  d' <> Some VNull \/ is_nullable leaf = false ->
  getParsedType d' <> expected_type leaf ->
  violation s d q (expected_type leaf) (getParsedType d').
Proof.
  induction q as [| [k | i] q IH]; intros s d d' leaf Hs Hr Hn Hty.
  - simpl in Hs, Hr. inversion Hs; inversion Hr; subst.
    now apply violation_leaf.
  - simpl in Hs, Hr.
    destruct (unwrap s) as [| | | | | shape] eqn:Eu; try discriminate Hs.
    destruct (shape_lookup k shape) as [sk |] eqn:Ek; [| discriminate Hs].
    destruct d as [[| b | f | x | vs | fields] |]; try discriminate Hr.
    apply violation_unwrap; [discriminate |]. rewrite Eu.
    apply violation_field with (sk := sk); [now apply shape_lookup_In |].
    eapply IH; eauto.
  - simpl in Hs, Hr.
    destruct (unwrap s) as [| | | elem | |] eqn:Eu; try discriminate Hs.
    destruct d as [[| b | f | x | vs | fields] |]; try discriminate Hr.
    destruct (nth_error vs i) as [v |] eqn:Ei; [| discriminate Hr].
    apply violation_unwrap; [discriminate |]. rewrite Eu.
    apply violation_item with (v := v); [exact Ei |].
    eapply IH; eauto.
Qed.

Lemma violation_rejected (raw : value) (q : list key) (e r : ZodParsedType) :
  violation ChatCompletionSchema (Some raw) q e r ->
  exists errors,
    validate raw = Failure errors /\ In (mkIssue q e r) errors.
Proof.
  intro H. destruct (violation_reported _ _ _ _ _ H []) as [errors [Hp Hx]].
  exists errors. split; [now apply validate_failure | exact Hx].
Qed.

Lemma not_null_type (v : value) :
  v <> VNull -> getParsedType (Some v) <> PNull.
Proof.
  destruct v as [| b | f | x | vs | fs]; simpl; intro H;
    try discriminate; [now exfalso |].
  destruct (PrimFloat.is_nan f); discriminate.
Qed.

Lemma expected_shape_type (s : schema) (e : ZodParsedType) :
  expected_shape s e -> e = expected_type s.
Proof. induction 1; simpl; auto. Qed.

Lemma actual_shape_type (v : value) (r : ZodParsedType) :
  actual_shape v r -> r = getParsedType (Some v).
Proof.
  destruct 1 as [| b | f Hf | f Hf | x | items | fields]; simpl;
    try reflexivity; now rewrite Hf.
Qed.

Lemma integer_field_schema (q : list key) :
  integer_field q -> schema_at ChatCompletionSchema q = Some z_number.
Proof.
  intros [| k Hk | i j n]; try reflexivity.
  simpl in Hk. destruct Hk as [<- | [<- | [<- | []]]]; reflexivity.
Qed.

(** ** [map] with an index *)

Lemma mapi_from_length {A B : Type} (f : A -> nat -> B) (l : list A) :
  forall i, List.length (mapi_from f i l) = List.length l.
Proof. induction l as [| a rest IH]; intro i; simpl; auto. Qed.

Lemma mapi_from_nth_error {A B : Type} (f : A -> nat -> B) (l : list A) :
  forall i n a, nth_error l n = Some a ->
    nth_error (mapi_from f i l) n = Some (f a (i + n)).
Proof.
  induction l as [| x rest IH]; intros i n a H.
  - destruct n; discriminate H.
  - destruct n as [| n]; simpl in *.
    + inversion H. now rewrite Nat.add_0_r.
    + rewrite (IH (S i) n a H). now rewrite Nat.add_succ_comm.
Qed.

Lemma map_mapi_from {A B C : Type} (f : A -> nat -> B) (g : B -> C)
  (h : A -> C) (l : list A) :
  (forall a i, g (f a i) = h a) ->
  forall i, map g (mapi_from f i l) = map h l.
Proof.
  intro H. induction l as [| a rest IH]; intro i; simpl; [reflexivity |].
  now rewrite H, IH.
Qed.

(** ** One column *)

Lemma columnHeader_tokenColumn (token : LogProbContent.t) (index : nat) :
  columnHeader (tokenColumn token index) = Some (LogProbContent.token token).
Proof. reflexivity. Qed.

Lemma columnAlternatives_tokenColumn (token : LogProbContent.t) (index : nat) :
  columnAlternatives (tokenColumn token index) =
  mapi (alternativeEntry token) (LogProbContent.top_logprobs token).
Proof. reflexivity. Qed.

Lemma isChosen_alternativeEntry (token : LogProbContent.t)
  (alt : TopLogProb.t) (i : nat) :
  isChosen (alternativeEntry token alt i) =
  String.eqb (TopLogProb.token alt) (LogProbContent.token token).
Proof.
  unfold isChosen, alternativeEntry.
  destruct (String.eqb (TopLogProb.token alt) (LogProbContent.token token));
    reflexivity.
Qed.

(** What an entry shows: the alternative's text, then the percentage
    [(Math.exp(logprob)*100).toFixed(3)] followed by the percent sign. *)
Lemma alternativeEntry_children (token : LogProbContent.t)
  (alt : TopLogProb.t) (i : nat) :
  exists cls,
    alternativeEntry token alt i =
    div (Some i) cls
      [ text (TopLogProb.token alt); text ": ";
        toFixed (Mul (Math_exp (Num (TopLogProb.logprob alt)))
                     (Num 100%float)) 3;
        text "%" ].
Proof. eexists. reflexivity. Qed.



Lemma render_without_completion : renderTokenColumns None = Return None.
Proof. reflexivity. Qed.

Lemma render_first_choice (c : ChatCompletion.t) (choice : Choice.t)
  (rest : list Choice.t) :
  ChatCompletion.choices c = choice :: rest ->
  renderTokenColumns (Some c) =
  Return (Some (mapi tokenColumn (LogProbs.content (Choice.logprobs choice)))).
Proof. intro H. unfold renderTokenColumns. now rewrite H. Qed.

(** ** Numbers that are not NaN *)

Lemma SFcompare_refl (x : spec_float) :
  x <> S754_nan -> SFcompare x x = Some Eq.
Proof.
  destruct x as [s | s | | s m e]; intro H; simpl.
  - reflexivity.
  - now destruct s.
  - now exfalso.
  - destruct s; rewrite Z.compare_refl, Pos.compare_cont_refl; reflexivity.
Qed.

Lemma not_nan_class (f : float) :
  Prim2SF f <> S754_nan -> PrimFloat.is_nan f = false.
Proof.
  intro H. unfold PrimFloat.is_nan. rewrite eqb_spec. unfold SFeqb.
  now rewrite SFcompare_refl.
Qed.

Lemma leb_not_nan (f g : float) :
  (f <=? g)%float = true -> PrimFloat.is_nan f = false.
Proof.
  rewrite leb_spec. unfold SFleb. intro H. apply not_nan_class.
  intro E. rewrite E in H. discriminate H.
Qed.

Lemma isInteger_not_nan (f : float) :
  Number_isInteger f = true -> PrimFloat.is_nan f = false.
Proof.
  unfold Number_isInteger. intro H. apply not_nan_class.
  intro E. rewrite E in H. discriminate H.
Qed.

Lemma nonpositive_not_nan (f : float) :
  nonpositive f = true -> PrimFloat.is_nan f = false.
Proof. apply leb_not_nan. Qed.

Lemma natural_not_nan (f : float) :
  natural f = true -> PrimFloat.is_nan f = false.
Proof.
  unfold natural. intro H. apply andb_prop in H as [H _].
  now apply isInteger_not_nan.
Qed.

Lemma byte_not_nan (f : float) :
  byte f = true -> PrimFloat.is_nan f = false.
Proof.
  unfold byte. intro H. apply andb_prop in H as [H _].
  now apply natural_not_nan.
Qed.

(** ** Parsing the document of a typed value *)

Lemma parse_number (p : list key) (f : float) :
  PrimFloat.is_nan f = false ->
  parse z_number p (Some (VNum f)) = Success (VNum f).
Proof. intro H. simpl. now rewrite H. Qed.

Lemma parse_items_map {A : Type} (s : schema) (g : A -> value)
  (p : list key) (l : list A) :
  (forall a, In a l -> forall p', parse s p' (Some (g a)) = Success (g a)) ->
  forall i, parse_items (parse s) p i (map g l) = Success (map g l).
Proof.
  induction l as [| a rest IH]; intros H i; simpl; [reflexivity |].
  rewrite (H a (or_introl eq_refl)).
  rewrite IH; [reflexivity |].
  intros b Hb. apply H. now right.
Qed.

Lemma parse_array_map {A : Type} (s : schema) (g : A -> value)
  (p : list key) (l : list A) :
  (forall a, In a l -> forall p', parse s p' (Some (g a)) = Success (g a)) ->
  parse (z_array s) p (Some (VArr (map g l))) = Success (VArr (map g l)).
Proof.
  intro H. rewrite parse_array_eq. now rewrite parse_items_map.
Qed.

Lemma parse_bytes (p : list key) (l : list float) :
  forallb byte l = true ->
  parse (z_array z_number) p (Some (numbers_to_js l)) =
  Success (numbers_to_js l).
Proof.
  intro H. apply parse_array_map. intros f Hf p'.
  apply parse_number, byte_not_nan.
  rewrite forallb_forall in H. now apply H.
Qed.

Lemma traverse_map {A : Type} (f : value -> option A) (g : A -> value)
  (l : list A) :
  (forall a, f (g a) = Some a) -> traverse f (map g l) = Some l.
Proof.
  intro H. induction l as [| a rest IH]; simpl; [reflexivity |].
  now rewrite H, IH.
Qed.

Lemma numbers_of_js (l : list float) :
  array_of_js number_of_js (numbers_to_js l) = Some l.
Proof. apply traverse_map. reflexivity. Qed.

Lemma parse_nullable_array (s : schema) (p : list key) (l : list value) :
  parse (z_nullable s) p (Some (VArr l)) = parse s p (Some (VArr l)).
Proof. reflexivity. Qed.

Ltac split_ok H :=
  repeat match type of H with
         | (_ && _)%bool = true =>
             let H' := fresh "Hok" in
             apply andb_prop in H as [H H']
         end.

Lemma TopLogProb_parse (p : list key) (a : TopLogProb.t) :
  TopAlternative_ok a = true ->
  parse TopLogProbSchema p (Some (TopLogProb.to_js a)) =
  Success (TopLogProb.to_js a).
Proof.
  intro H. unfold TopAlternative_ok in H. split_ok H.
  unfold TopLogProbSchema, TopLogProb.to_js.
  rewrite parse_object_eq. cbn [parse_shape lookup String.eqb Ascii.eqb Bool.eqb].
  rewrite (parse_number _ _ (nonpositive_not_nan _ H)).
  destruct (TopLogProb.bytes a) as [l |].
  - unfold numbers_to_js at 1. rewrite parse_nullable_array.
    fold (numbers_to_js l). now rewrite (parse_bytes _ _ Hok).
  - reflexivity.
Qed.

Lemma TopLogProb_of_js (a : TopLogProb.t) :
  TopLogProb.of_js (TopLogProb.to_js a) = Some a.
Proof.
  destruct a as [t lp [l |]]; unfold TopLogProb.of_js, TopLogProb.to_js, field;
    cbn [lookup String.eqb Ascii.eqb Bool.eqb TopLogProb.token
         TopLogProb.logprob TopLogProb.bytes string_of_js number_of_js].
  - unfold nullable_of_js, numbers_to_js at 1. fold (numbers_to_js l).
    now rewrite numbers_of_js.
  - reflexivity.
Qed.

Ltac unfold_object :=
  rewrite parse_object_eq;
  cbn [parse_shape lookup String.eqb Ascii.eqb Bool.eqb].

Ltac read_object :=
  unfold field;
  cbn [lookup String.eqb Ascii.eqb Bool.eqb string_of_js number_of_js
       null_of_js].

Lemma LogProbContent_parse (p : list key) (t : LogProbContent.t) :
  EmittedToken_ok t = true ->
  parse LogProbContentSchema p (Some (LogProbContent.to_js t)) =
  Success (LogProbContent.to_js t).
Proof.
  intro H. unfold EmittedToken_ok in H. split_ok H.
  unfold LogProbContentSchema, LogProbContent.to_js. unfold_object.
  rewrite (parse_number _ _ (nonpositive_not_nan _ H)).
  rewrite (parse_bytes _ _ Hok0).
  rewrite parse_array_map; [reflexivity |].
  intros a Ha p'. apply TopLogProb_parse.
  rewrite forallb_forall in Hok. now apply Hok.
Qed.

Lemma LogProbContent_of_js (t : LogProbContent.t) :
  LogProbContent.of_js (LogProbContent.to_js t) = Some t.
Proof.
  destruct t as [tk lp bs alts].
  unfold LogProbContent.of_js, LogProbContent.to_js. read_object.
  cbn [LogProbContent.token LogProbContent.logprob LogProbContent.bytes
       LogProbContent.top_logprobs].
  rewrite numbers_of_js. unfold array_of_js.
  now rewrite (traverse_map _ _ alts TopLogProb_of_js).
Qed.

Lemma Message_parse (p : list key) (m : Message.t) :
  parse MessageSchema p (Some (Message.to_js m)) = Success (Message.to_js m).
Proof. reflexivity. Qed.

Lemma Message_of_js (m : Message.t) :
  Message.of_js (Message.to_js m) = Some m.
Proof. now destruct m. Qed.

Lemma LogProbs_parse (p : list key) (l : LogProbs.t) :
  forallb EmittedToken_ok (LogProbs.content l) = true ->
  parse (z_object [("content", z_array LogProbContentSchema)]) p
        (Some (LogProbs.to_js l)) = Success (LogProbs.to_js l).
Proof.
  intro H. unfold LogProbs.to_js. unfold_object.
  rewrite parse_array_map; [reflexivity |].
  intros t Ht p'. apply LogProbContent_parse.
  rewrite forallb_forall in H. now apply H.
Qed.

Lemma LogProbs_of_js (l : LogProbs.t) :
  LogProbs.of_js (LogProbs.to_js l) = Some l.
Proof.
  destruct l as [ts]. unfold LogProbs.of_js, LogProbs.to_js. read_object.
  cbn [LogProbs.content]. unfold array_of_js.
  now rewrite (traverse_map _ _ ts LogProbContent_of_js).
Qed.

Lemma Choice_parse (p : list key) (c : Choice.t) :
  Choice_ok c = true ->
  parse ChoiceSchema p (Some (Choice.to_js c)) = Success (Choice.to_js c).
Proof.
  intro H. unfold Choice_ok in H. split_ok H.
  unfold ChoiceSchema, Choice.to_js. unfold_object.
  rewrite (parse_number _ _ (natural_not_nan _ H)).
  rewrite Message_parse, (LogProbs_parse _ _ Hok).
  reflexivity.
Qed.

Lemma Choice_of_js (c : Choice.t) :
  Choice.of_js (Choice.to_js c) = Some c.
Proof.
  destruct c as [i m l fr]. unfold Choice.of_js, Choice.to_js. read_object.
  cbn [Choice.index Choice.message Choice.logprobs Choice.finish_reason].
  now rewrite Message_of_js, LogProbs_of_js.
Qed.

Lemma Usage_parse (p : list key) (u : Usage.t) :
  Usage_ok u = true ->
  parse UsageSchema p (Some (Usage.to_js u)) = Success (Usage.to_js u).
Proof.
  intro H. unfold Usage_ok in H. split_ok H.
  unfold UsageSchema, Usage.to_js. unfold_object.
  rewrite (parse_number _ _ (natural_not_nan _ H)).
  rewrite (parse_number _ _ (natural_not_nan _ Hok0)).
  rewrite (parse_number _ _ (natural_not_nan _ Hok)).
  reflexivity.
Qed.

Lemma Usage_of_js (u : Usage.t) : Usage.of_js (Usage.to_js u) = Some u.
Proof. now destruct u. Qed.

Lemma ChatCompletion_parse (p : list key) (c : ChatCompletion.t) :
  Completion_ok c = true ->
  parse ChatCompletionSchema p (Some (ChatCompletion.to_js c)) =
  Success (ChatCompletion.to_js c).
Proof.
  intro H. unfold Completion_ok in H. split_ok H.
  unfold ChatCompletionSchema, ChatCompletion.to_js. unfold_object.
  rewrite (parse_number _ _ (isInteger_not_nan _ H)).
  rewrite (Usage_parse _ _ Hok).
  rewrite parse_array_map; [reflexivity |].
  intros ch Hch p'. apply Choice_parse.
  rewrite forallb_forall in Hok0. now apply Hok0.
Qed.

Lemma ChatCompletion_of_js (c : ChatCompletion.t) :
  ChatCompletion.of_js (ChatCompletion.to_js c) = Some c.
Proof.
  destruct c as [i o cr m chs u []].
  unfold ChatCompletion.of_js, ChatCompletion.to_js. read_object.
  cbn [ChatCompletion.id ChatCompletion.object ChatCompletion.created
       ChatCompletion.model ChatCompletion.choices ChatCompletion.usage].
  unfold array_of_js.
  now rewrite (traverse_map _ _ chs Choice_of_js), Usage_of_js.
Qed.

(** ** The handler *)

Lemma successful_validation_stores (st : State) (data : value)
  (c : ChatCompletion.t) :
  validate data = Success c ->
  completion (fetchCompletion (Json data) st) = Some c.
Proof. intro H. unfold fetchCompletion. now rewrite H. Qed.

Lemma rejected_fetch_keeps_completion (st : State) (error : string) :
  completion (fetchCompletion (FetchRejected error) st) = completion st /\
  completion (fetchCompletion (JsonRejected error) st) = completion st.
Proof. split; reflexivity. Qed.

(** ** The issues of a failed parse *)

Lemma merge_failure_inv {A : Type} (r : SafeParseResult A)
  (rs : SafeParseResult (list A)) (errors : list ZodIssue) :
  merge r rs = Failure errors ->
  errors = issues r ++ issues rs /\
  ((exists e, r = Failure e) \/ (exists e, rs = Failure e)).
Proof.
  destruct r as [a | e1], rs as [l | e2]; simpl; intro H; inversion H; subst.
  - split; [reflexivity | right; eauto].
  - split; [now rewrite app_nil_r | left; eauto].
  - split; [reflexivity | left; eauto].
Qed.

Lemma issues_merge {A : Type} (r : SafeParseResult A)
  (rs : SafeParseResult (list A)) :
  issues (merge r rs) = issues r ++ issues rs.
Proof.
  destruct r as [a | e1], rs as [l | e2]; simpl; try reflexivity.
  now rewrite app_nil_r.
Qed.

Lemma issues_with_key (k : string) (r : SafeParseResult value) :
  issues (with_key k r) = issues r.
Proof. now destruct r. Qed.

Lemma violation_here_failed (s : schema) (p : list key) (d : option value)
  (errors : list ZodIssue) :
  is_nullable s = false ->
  invalid_type s p d = Failure errors ->
  getParsedType d <> expected_type s ->
  errors <> [] /\
  forall x, In x errors ->
    exists q e r, x = mkIssue (p ++ q) e r /\ violation s d q e r.
Proof.
  intros Hn H Hty. inversion H; subst. split; [discriminate |].
  intros x [<- | []].
  exists [], (expected_type s), (getParsedType d).
  rewrite app_nil_r. split; [reflexivity | now apply violation_here].
Qed.

Lemma failure_spec_string : failure_spec z_string.
Proof.
  intros p d errors H.
  destruct d as [[| b | f | x | vs | fs] |]; try discriminate H;
    apply (violation_here_failed z_string p _ errors eq_refl H);
    simpl; try discriminate.
  destruct (PrimFloat.is_nan f); discriminate.
Qed.

Lemma failure_spec_number : failure_spec z_number.
Proof.
  intros p d errors H.
  destruct d as [[| b | f | x | vs | fs] |]; simpl in H;
    try (apply (violation_here_failed z_number p _ errors eq_refl H);
         simpl; discriminate).
  destruct (PrimFloat.is_nan f) eqn:E; [| discriminate H].
  apply (violation_here_failed z_number p _ errors eq_refl H).
  simpl. rewrite E. discriminate.
Qed.

Lemma failure_spec_null : failure_spec z_null.
Proof.
  intros p d errors H.
  destruct d as [[| b | f | x | vs | fs] |]; try discriminate H;
    apply (violation_here_failed z_null p _ errors eq_refl H);
    simpl; try discriminate.
  destruct (PrimFloat.is_nan f); discriminate.
Qed.

Lemma parse_items_failure (elem : schema) (p : list key) :
  failure_spec elem ->
  forall items i0 errors,
    parse_items (parse elem) p i0 items = Failure errors ->
    errors <> [] /\
    forall x, In x errors ->
      exists i v q e r,
        nth_error items i = Some v /\
        x = mkIssue (p ++ KIdx (i0 + i) :: q) e r /\
        violation elem (Some v) q e r.
Proof.
  intros IH. induction items as [| v rest IHl]; intros i0 errors H;
    simpl in H; [discriminate H |].
  assert (Hhead : forall e1, parse elem (p ++ [KIdx i0]) (Some v) = Failure e1 ->
            e1 <> [] /\
            forall x, In x e1 ->
              exists i w q e r,
                nth_error (v :: rest) i = Some w /\
                x = mkIssue (p ++ KIdx (i0 + i) :: q) e r /\
                violation elem (Some w) q e r).
  { intros e1 H1. destruct (IH _ _ _ H1) as [Hne Hall]. split; [exact Hne |].
    intros x Hx. destruct (Hall x Hx) as (q & e & r & -> & Hv).
    exists 0, v, q, e, r. rewrite Nat.add_0_r, <- app_assoc. auto. }
  assert (Htail : forall e2, parse_items (parse elem) p (S i0) rest = Failure e2 ->
            e2 <> [] /\
            forall x, In x e2 ->
              exists i w q e r,
                nth_error (v :: rest) i = Some w /\
                x = mkIssue (p ++ KIdx (i0 + i) :: q) e r /\
                violation elem (Some w) q e r).
  { intros e2 H2. destruct (IHl _ _ H2) as [Hne Hall]. split; [exact Hne |].
    intros x Hx. destruct (Hall x Hx) as (i & w & q & e & r & Hn & -> & Hv).
    exists (S i), w, q, e, r. rewrite <- Nat.add_succ_comm. auto. }
  destruct (parse elem (p ++ [KIdx i0]) (Some v)) as [a | e1];
    destruct (parse_items (parse elem) p (S i0) rest) as [l | e2];
    simpl in H; inversion H; subst.
  - now apply Htail.
  - now apply Hhead.
  - destruct (Hhead e1 eq_refl) as [Hne1 Hall1].
    destruct (Htail e2 eq_refl) as [Hne2 Hall2].
    split.
    + intro Hnil. apply app_eq_nil in Hnil as [Hnil _]. now apply Hne1.
    + intros x Hx. apply in_app_or in Hx as [Hx | Hx]; auto.
Qed.

Lemma parse_shape_failure (p : list key) (fields : list (string * value)) :
  forall shape errors,
    Forall (fun ks => failure_spec (snd ks)) shape ->
    parse_shape p fields shape = Failure errors ->
    errors <> [] /\
    forall x, In x errors ->
      exists k sk q e r,
        In (k, sk) shape /\
        x = mkIssue (p ++ KStr k :: q) e r /\
        violation sk (lookup k fields) q e r.
Proof.
  induction shape as [| [k sk] rest IHl]; intros errors HF H;
    simpl in H; [discriminate H |].
  inversion HF as [| ? ? Hsk Hrest]; subst. simpl in Hsk.
  assert (Hhead : forall e1,
            parse sk (p ++ [KStr k]) (lookup k fields) = Failure e1 ->
            e1 <> [] /\
            forall x, In x e1 ->
              exists k' sk' q e r,
                In (k', sk') ((k, sk) :: rest) /\
                x = mkIssue (p ++ KStr k' :: q) e r /\
                violation sk' (lookup k' fields) q e r).
  { intros e1 H1. destruct (Hsk _ _ _ H1) as [Hne Hall]. split; [exact Hne |].
    intros x Hx. destruct (Hall x Hx) as (q & e & r & -> & Hv).
    exists k, sk, q, e, r. rewrite <- app_assoc. simpl. auto. }
  assert (Htail : forall e2, parse_shape p fields rest = Failure e2 ->
            e2 <> [] /\
            forall x, In x e2 ->
              exists k' sk' q e r,
                In (k', sk') ((k, sk) :: rest) /\
                x = mkIssue (p ++ KStr k' :: q) e r /\
                violation sk' (lookup k' fields) q e r).
  { intros e2 H2. destruct (IHl _ Hrest H2) as [Hne Hall].
    split; [exact Hne |].
    intros x Hx. destruct (Hall x Hx) as (k' & sk' & q & e & r & Hin & -> & Hv).
    exists k', sk', q, e, r. simpl. auto. }
  destruct (parse sk (p ++ [KStr k]) (lookup k fields)) as [a | e1];
    destruct (parse_shape p fields rest) as [l | e2];
    simpl in H; inversion H; subst.
  - now apply Htail.
  - now apply Hhead.
  - destruct (Hhead e1 eq_refl) as [Hne1 Hall1].
    destruct (Htail e2 eq_refl) as [Hne2 Hall2].
    split.
    + intro Hnil. apply app_eq_nil in Hnil as [Hnil _]. now apply Hne1.
    + intros x Hx. apply in_app_or in Hx as [Hx | Hx]; auto.
Qed.

Lemma failure_spec_array (elem : schema) :
  failure_spec elem -> failure_spec (z_array elem).
Proof.
  intros IH p d errors H.
  destruct d as [[| b | f | x | items | fs] |];
    try (apply (violation_here_failed (z_array elem) p _ errors eq_refl H);
         simpl; try discriminate; destruct (PrimFloat.is_nan f); discriminate).
  rewrite parse_array_eq in H.
  destruct (parse_items (parse elem) p 0 items) as [l | e0] eqn:E;
    inversion H; subst.
  destruct (parse_items_failure elem p IH _ _ _ E) as [Hne Hall].
  split; [exact Hne |].
  intros x Hx. destruct (Hall x Hx) as (i & v & q & e & r & Hn & -> & Hv).
  exists (KIdx i :: q), e, r. split; [reflexivity |].
  now apply violation_item with (v := v).
Qed.

Lemma failure_spec_nullable (inner : schema) :
  failure_spec inner -> failure_spec (z_nullable inner).
Proof.
  intros IH p d errors H.
  assert (Hd : d <> Some VNull /\ parse inner p d = Failure errors).
  { destruct d as [[| b | f | x | items | fs] |]; simpl in H;
      try discriminate H; split; try exact H; discriminate. }
  destruct Hd as [Hd Hp]. destruct (IH _ _ _ Hp) as [Hne Hall].
  split; [exact Hne |].
  intros x Hx. destruct (Hall x Hx) as (q & e & r & -> & Hv).
  exists q, e, r. split; [reflexivity | now apply violation_nullable].
Qed.

Lemma failure_spec_object (shape : list (string * schema)) :
  Forall (fun ks => failure_spec (snd ks)) shape ->
  failure_spec (z_object shape).
Proof.
  intros IH p d errors H.
  destruct d as [[| b | f | x | items | fields] |];
    try (apply (violation_here_failed (z_object shape) p _ errors eq_refl H);
         simpl; try discriminate; destruct (PrimFloat.is_nan f); discriminate).
  rewrite parse_object_eq in H.
  destruct (parse_shape p fields shape) as [l | e0] eqn:E; inversion H; subst.
  destruct (parse_shape_failure p fields shape _ IH E) as [Hne Hall].
  split; [exact Hne |].
  intros x Hx.
  destruct (Hall x Hx) as (k & sk & q & e & r & Hin & -> & Hv).
  exists (KStr k :: q), e, r. split; [reflexivity |].
  now apply violation_field with (sk := sk).
Qed.

Lemma parse_failure_spec (s : schema) : failure_spec s.
Proof.
  apply schema_induction;
    auto using failure_spec_string, failure_spec_number, failure_spec_null,
      failure_spec_array, failure_spec_nullable, failure_spec_object.
Qed.

Lemma validate_cases (raw : value) :
  (exists c, validate raw = Success c /\
             safeParse ChatCompletionSchema raw = Success (ChatCompletion.to_js c)) \/
  (exists errors, validate raw = Failure errors /\
                  safeParse ChatCompletionSchema raw = Failure errors).
Proof.
  destruct (safeParse ChatCompletionSchema raw) as [v | e] eqn:E.
  - left. destruct (safeParse_typed _ _ E) as (c & Hc & <-). eauto.
  - right. exists e. split; [now apply validate_failure | reflexivity].
Qed.

Lemma issues_validate (raw : value) :
  issues (validate raw) = issues (safeParse ChatCompletionSchema raw).
Proof.
  destruct (validate_cases raw) as [(c & -> & ->) | (e & -> & ->)];
    reflexivity.
Qed.

Lemma issues_parse_shape (p : list key) (fields : list (string * value))
  (shape : list (string * schema)) :
  issues (parse_shape p fields shape) =
  List.concat (map (fun ks => issues (parse (snd ks) (p ++ [KStr (fst ks)])
                                       (lookup (fst ks) fields))) shape).
Proof.
  induction shape as [| [k sk] rest IH]; simpl; [reflexivity |].
  now rewrite issues_merge, issues_with_key, IH.
Qed.

Lemma issues_parse_items (f : list key -> option value -> SafeParseResult value)
  (p : list key) (items : list value) :
  forall i,
  issues (parse_items f p i items) =
  List.concat (mapi_from (fun v n => issues (f (p ++ [KIdx n]) (Some v))) i items).
Proof.
  induction items as [| v rest IH]; intro i; simpl; [reflexivity |].
  now rewrite issues_merge, IH.
Qed.

Lemma issues_wrap {A B : Type} (r : SafeParseResult A) (g : A -> B) :
  issues (match r with
          | Success l => Success (g l)
          | Failure e => Failure e
          end) = issues r.
Proof. now destruct r. Qed.

Lemma parse_shape_agree (p : list key) (fs1 fs2 : list (string * value))
  (shape : list (string * schema)) :
  (forall k, In k (map fst shape) -> lookup k fs1 = lookup k fs2) ->
  parse_shape p fs1 shape = parse_shape p fs2 shape.
Proof.
  induction shape as [| [k sk] rest IH]; intro H; simpl; [reflexivity |].
  rewrite (H k (or_introl eq_refl)), IH; [reflexivity |].
  intros k' Hk'. apply H. now right.
Qed.

(** ** What a successful parse keeps *)

Lemma parse_leaf_identity (s : schema) (p : list key) (d : option value)
  (v : value) :
  is_leaf s = true -> parse s p d = Success v -> d = Some v.
Proof.
  induction s as [| | | elem _ | inner IH | shape]; intros Hl H;
    try discriminate Hl.
  - destruct d as [[| b | f | x | vs | fs] |]; inversion H. reflexivity.
  - destruct d as [[| b | f | x | vs | fs] |]; try discriminate H.
    simpl in H. destruct (PrimFloat.is_nan f); inversion H. reflexivity.
  - destruct d as [[| b | f | x | vs | fs] |]; inversion H. reflexivity.
  - destruct d as [[| b | f | x | vs | fs] |]; simpl in H;
      try (apply IH; [exact Hl | exact H]).
    inversion H. reflexivity.
Qed.

Lemma parse_unwrap (s : schema) (p : list key) (d : option value) (v : value) :
  parse s p d = Success v ->
  (d = Some VNull /\ v = VNull) \/ parse (unwrap s) p d = Success v.
Proof.
  induction s as [| | | elem _ | inner IH | shape]; intro H; auto.
  destruct d as [[| b | f | x | vs | fs] |]; simpl in H;
    try (apply IH; exact H).
  inversion H. auto.
Qed.

Lemma parse_shape_lookup (p : list key) (fields : list (string * value))
  (k : string) (sk : schema) :
  forall shape l,
    parse_shape p fields shape = Success l ->
    shape_lookup k shape = Some sk ->
    exists vk, lookup k l = Some vk /\
               parse sk (p ++ [KStr k]) (lookup k fields) = Success vk.
Proof.
  induction shape as [| [k' s'] rest IH]; intros l H Hk; [discriminate Hk |].
  simpl in H, Hk.
  apply merge_success in H as (a & l' & Ha & Hl & ->).
  apply with_key_success in Ha as (v' & Ha & ->).
  simpl. destruct (String.eqb k k') eqn:E.
  - apply String.eqb_eq in E. subst k'. inversion Hk; subst s'. eauto.
  - now apply IH.
Qed.

Lemma parse_items_nth (f : list key -> option value -> SafeParseResult value)
  (p : list key) :
  forall items i0 l,
    parse_items f p i0 items = Success l ->
    forall i,
      match nth_error items i with
      | Some v => exists v', nth_error l i = Some v' /\
                             f (p ++ [KIdx (i0 + i)]) (Some v) = Success v'
      | None => nth_error l i = None
      end.
Proof.
  induction items as [| v rest IH]; intros i0 l H i; simpl in H.
  - inversion H. now destruct i.
  - apply merge_success in H as (a & l' & Ha & Hl & ->).
    destruct i as [| i]; simpl.
    + exists a. now rewrite Nat.add_0_r.
    + specialize (IH _ _ Hl i). rewrite <- Nat.add_succ_comm. exact IH.
Qed.

Lemma parse_items_length (f : list key -> option value -> SafeParseResult value)
  (p : list key) :
  forall items i0 l,
    parse_items f p i0 items = Success l -> List.length l = List.length items.
Proof.
  induction items as [| v rest IH]; intros i0 l H; simpl in H.
  - now inversion H.
  - apply merge_success in H as (a & l' & _ & Hl & ->).
    simpl. now rewrite (IH _ _ Hl).
Qed.

Lemma parse_keeps_leaves (q : list key) :
  forall (s : schema) (p : list key) (d : option value) (v : value)
         (leaf : schema),
    parse s p d = Success v ->
    schema_at s q = Some leaf ->
    is_leaf leaf = true ->
    reach (Some v) q = reach d q.
Proof.
  induction q as [| [k | i] q IH]; intros s p d v leaf H Hs Hl.
  - simpl in Hs. inversion Hs; subst leaf. simpl.
    now rewrite (parse_leaf_identity s p d v Hl H).
  - simpl in Hs.
    destruct (unwrap s) as [| | | | | shape] eqn:Eu; try discriminate Hs.
    destruct (shape_lookup k shape) as [sk |] eqn:Ek; [| discriminate Hs].
    destruct (parse_unwrap s p d v H) as [[-> ->] | Hp]; [reflexivity |].
    rewrite Eu in Hp.
    destruct d as [[| b | f | x | vs | fields] |]; try discriminate Hp.
    rewrite parse_object_eq in Hp.
    destruct (parse_shape p fields shape) as [l | e] eqn:E;
      inversion Hp; subst v.
    destruct (parse_shape_lookup p fields k sk shape l E Ek) as (vk & Hvk & Hpk).
    simpl. rewrite Hvk. now apply (IH sk _ _ _ leaf Hpk).
  - simpl in Hs.
    destruct (unwrap s) as [| | | elem | |] eqn:Eu; try discriminate Hs.
    destruct (parse_unwrap s p d v H) as [[-> ->] | Hp]; [reflexivity |].
    rewrite Eu in Hp.
    destruct d as [[| b | f | x | items | fields] |]; try discriminate Hp.
    rewrite parse_array_eq in Hp.
    destruct (parse_items (parse elem) p 0 items) as [l | e] eqn:E;
      inversion Hp; subst v.
    pose proof (parse_items_nth (parse elem) p items 0 l E i) as Hn.
    simpl. destruct (nth_error items i) as [w |].
    + destruct Hn as (w' & -> & Hw). now apply (IH elem _ _ _ leaf Hw).
    + now rewrite Hn.
Qed.

(** ** Numbers of a parsed value *)

Lemma parse_items_no_nan (elem : schema) (p : list key) :
  (forall p d v, parse elem p d = Success v -> no_nan v = true) ->
  forall items i l,
    parse_items (parse elem) p i items = Success l ->
    forallb no_nan l = true.
Proof.
  intro IH. induction items as [| w rest IHl]; intros i l H; simpl in H.
  - now inversion H.
  - apply merge_success in H as (a & l' & Ha & Hl & ->).
    simpl. now rewrite (IH _ _ _ Ha), (IHl _ _ Hl).
Qed.

Lemma parse_shape_no_nan (p : list key) (fields : list (string * value)) :
  forall shape l,
    Forall (fun ks => forall p d v, parse (snd ks) p d = Success v ->
                                    no_nan v = true) shape ->
    parse_shape p fields shape = Success l ->
    forallb (fun kv => no_nan (snd kv)) l = true.
Proof.
  induction shape as [| [k sk] rest IHl]; intros l HF H; simpl in H.
  - now inversion H.
  - inversion HF as [| ? ? Hsk Hrest]; subst.
    apply merge_success in H as (a & l' & Ha & Hl & ->).
    apply with_key_success in Ha as (v' & Ha & ->).
    simpl. now rewrite (Hsk _ _ _ Ha), (IHl _ Hrest Hl).
Qed.

Lemma parse_no_nan (s : schema) :
  forall p d v, parse s p d = Success v -> no_nan v = true.
Proof.
  apply (schema_induction
           (fun s => forall p d v, parse s p d = Success v -> no_nan v = true)).
  - intros p [[| b | f | x | vs | fs] |] v H; inversion H. reflexivity.
  - intros p [[| b | f | x | vs | fs] |] v H; try discriminate H.
    simpl in H. destruct (PrimFloat.is_nan f) eqn:E; inversion H.
    simpl. now rewrite E.
  - intros p [[| b | f | x | vs | fs] |] v H; inversion H. reflexivity.
  - intros elem IH p [[| b | f | x | items | fs] |] v H; try discriminate H.
    rewrite parse_array_eq in H.
    destruct (parse_items (parse elem) p 0 items) as [l | e] eqn:E;
      inversion H.
    simpl. now apply (parse_items_no_nan elem p IH items 0).
  - intros inner IH p d v H.
    destruct d as [[| b | f | x | items | fs] |]; simpl in H;
      try (now apply (IH _ _ _ H)).
    now inversion H.
  - intros shape IH p [[| b | f | x | items | fields] |] v H;
      try discriminate H.
    rewrite parse_object_eq in H.
    destruct (parse_shape p fields shape) as [l | e] eqn:E; inversion H.
    simpl. now apply (parse_shape_no_nan p fields shape).
Qed.

(** ** Documents of typed values without NaN *)

Ltac split_all :=
  repeat match goal with
         | H : (_ && _)%bool = true |- _ =>
             apply andb_prop in H; destruct H
         | H : negb _ = true |- _ => apply negb_true_iff in H
         end.

Lemma forallb_map_elim {A B : Type} (f : B -> bool) (g : A -> B) (l : list A) :
  forallb f (map g l) = true -> forall a, In a l -> f (g a) = true.
Proof.
  intros H a Ha. rewrite forallb_forall in H. apply H. now apply in_map.
Qed.

Lemma numbers_accepted (p : list key) (l : list float) :
  no_nan (numbers_to_js l) = true ->
  parse (z_array z_number) p (Some (numbers_to_js l)) =
  Success (numbers_to_js l).
Proof.
  intro H. apply parse_array_map. intros f Hf p'.
  apply parse_number.
  pose proof (forallb_map_elim no_nan VNum l H f Hf) as Hn.
  simpl in Hn. now apply negb_true_iff in Hn.
Qed.

Lemma TopLogProb_accepted (p : list key) (a : TopLogProb.t) :
  no_nan (TopLogProb.to_js a) = true ->
  parse TopLogProbSchema p (Some (TopLogProb.to_js a)) =
  Success (TopLogProb.to_js a).
Proof.
  unfold TopLogProbSchema, TopLogProb.to_js. intro H.
  cbn [no_nan forallb snd andb] in H. split_all.
  unfold_object. rewrite parse_number by assumption.
  destruct (TopLogProb.bytes a) as [l |]; [| reflexivity].
  unfold numbers_to_js at 1. rewrite parse_nullable_array.
  fold (numbers_to_js l). now rewrite numbers_accepted.
Qed.

Lemma LogProbContent_accepted (p : list key) (t : LogProbContent.t) :
  no_nan (LogProbContent.to_js t) = true ->
  parse LogProbContentSchema p (Some (LogProbContent.to_js t)) =
  Success (LogProbContent.to_js t).
Proof.
  unfold LogProbContentSchema, LogProbContent.to_js. intro H.
  cbn [no_nan forallb snd andb] in H. split_all.
  unfold_object. rewrite parse_number by assumption.
  rewrite numbers_accepted by assumption.
  rewrite parse_array_map; [reflexivity |].
  intros a Ha p'. apply TopLogProb_accepted.
  eapply forallb_map_elim; eauto.
Qed.

Lemma LogProbs_accepted (p : list key) (l : LogProbs.t) :
  no_nan (LogProbs.to_js l) = true ->
  parse (z_object [("content", z_array LogProbContentSchema)]) p
        (Some (LogProbs.to_js l)) = Success (LogProbs.to_js l).
Proof.
  unfold LogProbs.to_js. intro H.
  cbn [no_nan forallb snd andb] in H. split_all.
  unfold_object.
  rewrite parse_array_map; [reflexivity |].
  intros t Ht p'. apply LogProbContent_accepted.
  eapply forallb_map_elim; eauto.
Qed.

Lemma Choice_accepted (p : list key) (c : Choice.t) :
  no_nan (Choice.to_js c) = true ->
  parse ChoiceSchema p (Some (Choice.to_js c)) = Success (Choice.to_js c).
Proof.
  unfold ChoiceSchema, Choice.to_js. intro H.
  cbn [no_nan forallb snd andb] in H. split_all.
  unfold_object. rewrite parse_number by assumption.
  rewrite Message_parse, LogProbs_accepted by assumption.
  reflexivity.
Qed.

Lemma Usage_accepted (p : list key) (u : Usage.t) :
  no_nan (Usage.to_js u) = true ->
  parse UsageSchema p (Some (Usage.to_js u)) = Success (Usage.to_js u).
Proof.
  unfold UsageSchema, Usage.to_js. intro H.
  cbn [no_nan forallb snd andb] in H. split_all.
  unfold_object. rewrite !parse_number by assumption.
  reflexivity.
Qed.

Lemma ChatCompletion_accepted (p : list key) (c : ChatCompletion.t) :
  no_nan (ChatCompletion.to_js c) = true ->
  parse ChatCompletionSchema p (Some (ChatCompletion.to_js c)) =
  Success (ChatCompletion.to_js c).
Proof.
  unfold ChatCompletionSchema, ChatCompletion.to_js. intro H.
  cbn [no_nan forallb snd andb] in H. split_all.
  unfold_object. rewrite parse_number by assumption.
  rewrite Usage_accepted by assumption.
  rewrite parse_array_map; [reflexivity |].
  intros ch Hch p'. apply Choice_accepted.
  eapply forallb_map_elim; eauto.
Qed.

Lemma no_nan_revalidates (c : ChatCompletion.t) :
  no_nan (serialize c) = true -> validate (serialize c) = Success c.
Proof.
  intro H. unfold validate, safeParse, serialize.
  rewrite (ChatCompletion_accepted [] c H).
  now rewrite ChatCompletion_of_js.
Qed.

Lemma validated_no_nan (raw : value) (c : ChatCompletion.t) :
  validate raw = Success c -> no_nan (serialize c) = true.
Proof.
  intro H. apply validate_success in H.
  exact (parse_no_nan _ _ _ _ H).
Qed.

(** ** Columns and what they depend on *)

Lemma mapi_from_ext {A B C : Type} (f : A -> nat -> C) (g : B -> nat -> C)
  (h : A -> B -> Prop) :
  (forall a b i, h a b -> f a i = g b i) ->
  forall l1 l2 i, Forall2 h l1 l2 -> mapi_from f i l1 = mapi_from g i l2.
Proof.
  intros H l1 l2 i HF. revert i.
  induction HF as [| a b l1 l2 Hab _ IH]; intro i; simpl; [reflexivity |].
  now rewrite (H a b i Hab), IH.
Qed.

Lemma map_eq_Forall2 {A B : Type} (f : A -> B) (l1 l2 : list A) :
  map f l1 = map f l2 -> Forall2 (fun a b => f a = f b) l1 l2.
Proof.
  revert l2. induction l1 as [| a l1 IH]; intros [| b l2] H;
    try discriminate H; constructor.
  - now inversion H.
  - apply IH. now inversion H.
Qed.

Lemma tokenColumn_shown (t1 t2 : LogProbContent.t) (i : nat) :
  shown t1 = shown t2 -> tokenColumn t1 i = tokenColumn t2 i.
Proof.
  unfold shown. intro H. inversion H as [[Htok Halts]].
  unfold tokenColumn. rewrite Htok. f_equal. f_equal. unfold mapi.
  apply mapi_from_ext
    with (h := fun a b => (TopLogProb.token a, TopLogProb.logprob a) =
                          (TopLogProb.token b, TopLogProb.logprob b)).
  - intros a b n Hab. inversion Hab as [[Ha Hb]].
    unfold alternativeEntry. now rewrite Htok, Ha, Hb.
  - now apply map_eq_Forall2.
Qed.

Lemma mapi_from_keys {A : Type} (f : A -> nat -> jsx) (l : list A) :
  (forall a i, elementKey (f a i) = Some i) ->
  forall i, map elementKey (mapi_from f i l) = map Some (seq i (List.length l)).
Proof.
  intro H. induction l as [| a rest IH]; intro i; simpl; [reflexivity |].
  now rewrite H, IH.
Qed.

Lemma filter_mapi_from_length {A B : Type} (f : A -> nat -> B)
  (g : B -> bool) (h : A -> bool) (l : list A) :
  (forall a i, g (f a i) = h a) ->
  forall i, List.length (filter g (mapi_from f i l)) =
            List.length (filter h l).
Proof.
  intro H. induction l as [| a rest IH]; intro i; simpl; [reflexivity |].
  rewrite H. destruct (h a); simpl; now rewrite IH.
Qed.

(** ** Runs of the handler *)

Lemma fetchCompletion_not_stored (r : response) (st : State) :
  stores r = false ->
  completion (fetchCompletion r st) = completion st.
Proof.
  destruct r as [e | e | data]; simpl; try reflexivity.
  unfold fetchCompletion. destruct (validate data); [discriminate |].
  reflexivity.
Qed.

Lemma fetchCompletion_stored (data : value) (c : ChatCompletion.t)
  (st : State) :
  validate data = Success c ->
  completion (fetchCompletion (Json data) st) = Some c.
Proof. intro H. unfold fetchCompletion. now rewrite H. Qed.

Lemma run_not_stored (rs : list response) :
  forallb (fun r => negb (stores r)) rs = true ->
  forall st, completion (run rs st) = completion st.
Proof.
  unfold run. induction rs as [| r rest IH]; intros H st; [reflexivity |].
  simpl in H. apply andb_prop in H as [Hr Hrest].
  apply negb_true_iff in Hr. simpl.
  rewrite (IH Hrest). now apply fetchCompletion_not_stored.
Qed.

Lemma run_app (rs1 rs2 : list response) (st : State) :
  run (rs1 ++ rs2) st = run rs2 (run rs1 st).
Proof. unfold run. apply fold_left_app. Qed.

Lemma validated_choices (raw : value) (c : ChatCompletion.t) :
  validate raw = Success c ->
  exists items,
    reach (Some raw) [KStr "choices"] = Some (Some (VArr items)) /\
    List.length items = List.length (ChatCompletion.choices c).
Proof.
  intro H. apply validate_success in H. unfold safeParse in H.
  destruct raw as [| b | f | x | vs | fields]; try discriminate H.
  unfold ChatCompletionSchema in H. rewrite parse_object_eq in H.
  destruct (parse_shape [] fields _) as [l | e] eqn:E; inversion H as [Hl].
  destruct (parse_shape_lookup [] fields "choices" (z_array ChoiceSchema)
              _ l E eq_refl) as (vk & Hvk & Hp).
  rewrite Hl in Hvk. simpl in Hvk. inversion Hvk; subst vk. clear Hvk.
  simpl. destruct (lookup "choices" fields) as [[| b | f | x | items | fs] |];
    try discriminate Hp.
  rewrite parse_array_eq in Hp.
  destruct (parse_items (parse ChoiceSchema) _ 0 items) as [l' | e'] eqn:E';
    inversion Hp as [Hl'].
  exists items. split; [reflexivity |].
  apply parse_items_length in E'. rewrite <- E', Hl'. apply length_map.
Qed.

(** * The validator *)

(** C4, as amended: whenever [created], one of the three [usage] counters or
    an element of an emitted token's [bytes] holds something that is not a
    number, [validate] fails and reports that path with [number] expected.
    The schema asks for numbers only: integrality is not checked. *)
Theorem number_fields_required (raw : value) (q : list key) (v : value) :
  integer_field q ->
  reach (Some raw) q = Some (Some v) ->
  getParsedType (Some v) <> PNumber ->
  exists errors,
    validate raw = Failure errors /\
    In (mkIssue q PNumber (getParsedType (Some v))) errors.
Proof.
  intros Hq Hr Hty. apply violation_rejected.
  apply (mismatch_violation q ChatCompletionSchema (Some raw) (Some v) z_number).
  - now apply integer_field_schema.
  - exact Hr.
  - now right.
  - exact Hty.
Qed.

Lemma number_fields_required_witness :
  exists errors,
    validate createdAsString = Failure errors /\
    In (mkIssue [KStr "created"] PNumber PString) errors.
Proof.
  apply (number_fields_required createdAsString [KStr "created"]
           (VStr "1700000000")).
  - exact integer_created.
  - reflexivity.
  - simpl. discriminate.
Defined.

(** C4 as stated fails: a document whose [created], [usage] counters and
    [bytes] element are all fractional numbers is accepted. *)
Lemma fractional_numbers_accepted :
  Number_isInteger (ChatCompletion.created fractionalCompletion) = false /\
  Number_isInteger (Usage.prompt_tokens (ChatCompletion.usage fractionalCompletion)) = false /\
  Number_isInteger (Usage.completion_tokens (ChatCompletion.usage fractionalCompletion)) = false /\
  Number_isInteger (Usage.total_tokens (ChatCompletion.usage fractionalCompletion)) = false /\
  reach (Some (serialize fractionalCompletion))
        [KStr "choices"; KIdx 0; KStr "logprobs"; KStr "content"; KIdx 0;
         KStr "bytes"; KIdx 0] = Some (Some (VNum 72.5%float)) /\
  Number_isInteger 72.5%float = false /\
  validate (serialize fractionalCompletion) = Success fractionalCompletion /\
  ~ (exists errors, validate (serialize fractionalCompletion) = Failure errors).
Proof.
  assert (H : validate (serialize fractionalCompletion)
              = Success fractionalCompletion) by (vm_compute; reflexivity).
  repeat split; try (vm_compute; reflexivity).
  intros [errors He]. rewrite H in He. discriminate He.
Qed.

(** C5: a document whose [system_fingerprint] is anything but [null], or is
    absent, is rejected by [validate]; so [validate] succeeds only on
    documents that hold [system_fingerprint: null]. *)
Theorem system_fingerprint_must_be_null (raw : value) :
  fingerprint raw <> Some VNull ->
  (exists errors, validate raw = Failure errors /\ errors <> []) /\
  (forall c, validate raw <> Success c).
Proof.
  intro Hf.
  assert (Hfail : exists errors, validate raw = Failure errors /\ errors <> []);
    [| split; [exact Hfail |];
       destruct Hfail as [errors [He _]]; intros c Hc;
       rewrite He in Hc; discriminate Hc].
  assert (Hv : exists q e r, violation ChatCompletionSchema (Some raw) q e r).
  { destruct raw as [| b | f | x | vs | fields].
    1-5: exists [], PObject; eexists;
      apply (violation_here ChatCompletionSchema); [reflexivity |];
      simpl; try discriminate; destruct (PrimFloat.is_nan f); discriminate.
    simpl in Hf.
    exists [KStr "system_fingerprint"], PNull,
           (getParsedType (lookup "system_fingerprint" fields)).
    apply violation_field with (sk := z_null).
    - simpl. tauto.
    - apply (violation_here z_null); [reflexivity |].
      destruct (lookup "system_fingerprint" fields) as [v |];
        [| discriminate].
      apply not_null_type. congruence. }
  destruct Hv as (q & e & r & Hv).
  destruct (violation_rejected _ _ _ _ Hv) as [errors [He Hx]].
  exists errors. split; [exact He |].
  intro Hnil. rewrite Hnil in Hx. destruct Hx.
Qed.

Lemma system_fingerprint_must_be_null_witness :
  fingerprint fingerprinted = Some (VStr "fp_44709d6fcb") /\
  (exists errors, validate fingerprinted = Failure errors /\ errors <> []) /\
  (forall c, validate fingerprinted <> Success c).
Proof.
  split; [reflexivity |].
  apply (system_fingerprint_must_be_null fingerprinted).
  simpl. discriminate.
Defined.

(** C7: a document that lacks a property the schema has, or whose
    [system_fingerprint] is not [null], is rejected, and the list of issues
    holds one whose path is that of the offending property, with the shape
    the schema expects there and the shape the document has there
    ([undefined] for a property that is absent). *)
Theorem schema_rejection (raw : value) (issue : ZodIssue) :
  rejected_document raw issue ->
  exists errors, validate raw = Failure errors /\ In issue errors.
Proof.
  intros [q leaf e Hs He Hr | v r Hf Hv Hshape]; apply violation_rejected.
  - rewrite (expected_shape_type leaf e He).
    apply (mismatch_violation q ChatCompletionSchema (Some raw) None leaf);
      auto.
    + left. discriminate.
    + simpl. intro H. symmetry in H. now apply expected_type_defined in H.
  - destruct raw as [| b | f | x | vs | fields]; try discriminate Hf.
    simpl in Hf. rewrite (actual_shape_type v r Hshape).
    apply violation_field with (sk := z_null); [simpl; tauto |].
    rewrite Hf. apply (violation_here z_null); [reflexivity |].
    now apply not_null_type.
Qed.

Lemma schema_rejection_witness :
  (exists errors,
     validate missingTotalTokens = Failure errors /\
     In (mkIssue [KStr "usage"; KStr "total_tokens"] PNumber PUndefined)
        errors) /\
  (exists errors,
     validate fingerprinted = Failure errors /\
     In (mkIssue [KStr "system_fingerprint"] PNull PString) errors).
Proof.
  split.
  - apply (schema_rejection missingTotalTokens).
    apply (missing_required_field missingTotalTokens
             [KStr "usage"; KStr "total_tokens"] z_number PNumber).
    + reflexivity.
    + exact expected_number.
    + reflexivity.
  - apply (schema_rejection fingerprinted).
    apply (fingerprint_not_null fingerprinted (VStr "fp_44709d6fcb") PString).
    + reflexivity.
    + discriminate.
    + exact (actual_string "fp_44709d6fcb").
Defined.

(** * The renderer *)




(** C2: in the column of an emitted token of the first choice, the entry of
    an alternative is marked as chosen if and only if the alternative's
    token text equals the emitted token's text. *)
Theorem chosen_iff_same_text (c : ChatCompletion.t) (choice : Choice.t)
  (rest : list Choice.t) (n i : nat) (token : LogProbContent.t)
  (alt : TopLogProb.t) :
  ChatCompletion.choices c = choice :: rest ->
  nth_error (LogProbs.content (Choice.logprobs choice)) n = Some token ->
  nth_error (LogProbContent.top_logprobs token) i = Some alt ->
  exists cols col entry,
    renderTokenColumns (Some c) = Return (Some cols) /\
    nth_error cols n = Some col /\
    nth_error (columnAlternatives col) i = Some entry /\
    entryToken entry = Some (TopLogProb.token alt) /\
    (isChosen entry = true <->
     TopLogProb.token alt = LogProbContent.token token).
Proof.
  intros Hc Hn Hi.
  exists (mapi tokenColumn (LogProbs.content (Choice.logprobs choice))),
         (tokenColumn token n), (alternativeEntry token alt i).
  split; [now apply render_first_choice with (rest := rest) |].
  split; [exact (mapi_from_nth_error tokenColumn _ 0 n token Hn) |].
  split.
  { rewrite columnAlternatives_tokenColumn.
    exact (mapi_from_nth_error (alternativeEntry token) _ 0 i alt Hi). }
  split; [reflexivity |].
  rewrite isChosen_alternativeEntry. apply String.eqb_eq.
Qed.

Lemma chosen_iff_same_text_witness :
  exists cols col entry,
    renderTokenColumns (Some sampleCompletion) = Return (Some cols) /\
    nth_error cols 0 = Some col /\
    nth_error (columnAlternatives col) 1 = Some entry /\
    entryToken entry = Some "Hello" /\
    (isChosen entry = true <-> "Hello" = "Hi").
Proof.
  apply (chosen_iff_same_text sampleCompletion sampleChoice [] 0 1 sampleToken
           (TopLogProb.mk "Hello" (-2.303)%float None)); reflexivity.
Defined.

(** C3, as amended: a validated completion without any choice makes the
    renderer fail, by the fault the runtime raises when [logprobs] is read
    from the absent first choice; the schema of [choices] accepts the empty
    array. *)
Theorem empty_choices_fault (raw : value) (c : ChatCompletion.t) :
  validate raw = Success c ->
  ChatCompletion.choices c = [] ->
  renderTokenColumns (Some c) =
    Throw (TypeError "logprobs") /\
  schema_at ChatCompletionSchema [KStr "choices"] = Some (z_array ChoiceSchema) /\
  forall p, parse (z_array ChoiceSchema) p (Some (VArr [])) = Success (VArr []).
Proof.
  intros _ Hc. unfold renderTokenColumns. rewrite Hc.
  repeat split; reflexivity.
Qed.

Lemma empty_choices_fault_witness :
  renderTokenColumns (Some noChoiceCompletion) =
    Throw (TypeError "logprobs") /\
  schema_at ChatCompletionSchema [KStr "choices"] = Some (z_array ChoiceSchema) /\
  forall p, parse (z_array ChoiceSchema) p (Some (VArr [])) = Success (VArr []).
Proof.
  apply (empty_choices_fault (serialize noChoiceCompletion) noChoiceCompletion).
  - vm_compute. reflexivity.
  - reflexivity.
Defined.

(** C3 as stated fails: the completion without choices validates, and
    rendering it ends in the [TypeError] of a property read on [undefined],
    which is no error signalled by a guard of the renderer. *)
Lemma empty_choices_not_guarded :
  validate (serialize noChoiceCompletion) = Success noChoiceCompletion /\
  ChatCompletion.choices noChoiceCompletion = [] /\
  renderTokenColumns (Some noChoiceCompletion) =
    Throw (TypeError "logprobs") /\
  (forall message,
     renderTokenColumns (Some noChoiceCompletion) <> Throw (Error message)).
Proof.
  split; [vm_compute; reflexivity |].
  split; [reflexivity |].
  split; [reflexivity |].
  intros message H. discriminate H.
Qed.

(** C8: for a completion with a first choice, the renderer returns one
    column per emitted token, in the order of the tokens, each headed by its
    token's text and listing every alternative of that token, in the order
    the token has them. *)
Theorem columns_follow_tokens (c : ChatCompletion.t) (choice : Choice.t)
  (rest : list Choice.t) :
  ChatCompletion.choices c = choice :: rest ->
  let tokens := LogProbs.content (Choice.logprobs choice) in
  exists cols,
    renderTokenColumns (Some c) = Return (Some cols) /\
    List.length cols = List.length tokens /\
    map columnHeader cols =
      map (fun t => Some (LogProbContent.token t)) tokens /\
    map (fun col => List.length (columnAlternatives col)) cols =
      map (fun t => List.length (LogProbContent.top_logprobs t)) tokens /\
    map (fun col => map entryToken (columnAlternatives col)) cols =
      map (fun t => map (fun a => Some (TopLogProb.token a))
                        (LogProbContent.top_logprobs t)) tokens /\
    map (fun col => map entryLogprob (columnAlternatives col)) cols =
      map (fun t => map (fun a => Some (TopLogProb.logprob a))
                        (LogProbContent.top_logprobs t)) tokens.
Proof.
  intros Hc tokens.
  exists (mapi tokenColumn tokens).
  split; [now apply render_first_choice with (rest := rest) |].
  split; [apply mapi_from_length |].
  unfold mapi.
  split; [now apply map_mapi_from |].
  split.
  { apply map_mapi_from. intros t i.
    rewrite columnAlternatives_tokenColumn. apply mapi_from_length. }
  split.
  - apply map_mapi_from. intros t i.
    rewrite columnAlternatives_tokenColumn. now apply map_mapi_from.
  - apply map_mapi_from. intros t i.
    rewrite columnAlternatives_tokenColumn. now apply map_mapi_from.
Qed.

Lemma columns_follow_tokens_witness :
  exists cols,
    renderTokenColumns (Some sampleCompletion) = Return (Some cols) /\
    List.length cols = 1 /\
    map columnHeader cols = [Some "Hi"] /\
    map (fun col => List.length (columnAlternatives col)) cols = [2] /\
    map (fun col => map entryToken (columnAlternatives col)) cols =
      [[Some "Hi"; Some "Hello"]] /\
    map (fun col => map entryLogprob (columnAlternatives col)) cols =
      [[Some (-0.105)%float; Some (-2.303)%float]].
Proof.
  apply (columns_follow_tokens sampleCompletion sampleChoice []).
  reflexivity.
Defined.

(** C10: when the first choice emitted no token, the renderer returns the
    empty sequence of columns and raises nothing. *)
Theorem no_token_no_column (c : ChatCompletion.t) (choice : Choice.t)
  (rest : list Choice.t) :
  ChatCompletion.choices c = choice :: rest ->
  LogProbs.content (Choice.logprobs choice) = [] ->
  renderTokenColumns (Some c) = Return (Some []).
Proof.
  intros Hc Ht. rewrite (render_first_choice c choice rest Hc), Ht.
  reflexivity.
Qed.

Lemma no_token_no_column_witness :
  validate (serialize noTokenCompletion) = Success noTokenCompletion /\
  renderTokenColumns (Some noTokenCompletion) = Return (Some []).
Proof.
  split; [vm_compute; reflexivity |].
  apply (no_token_no_column noTokenCompletion
           (Choice.mk 0%float (Message.mk "assistant" "") (LogProbs.mk [])
              "stop") []); reflexivity.
Defined.

(** * Round trip and state *)

(** C6: a completion that meets the constraints of the data model, sent as
    its document, is accepted by [validate], which returns that very
    completion. *)
Theorem validate_serialize (c : ChatCompletion.t) :
  Completion_ok c = true ->
  validate (serialize c) = Success c.
Proof.
  intro H. unfold validate, safeParse, serialize.
  rewrite (ChatCompletion_parse [] c H).
  now rewrite ChatCompletion_of_js.
Qed.

Lemma validate_serialize_witness :
  Completion_ok sampleCompletion = true /\
  validate (serialize sampleCompletion) = Success sampleCompletion.
Proof.
  split; [vm_compute; reflexivity |].
  apply (validate_serialize sampleCompletion). vm_compute. reflexivity.
Defined.

(** C9: when the fetched document fails validation, [fetchCompletion]
    leaves the held completion as it was (the one stored before, or none),
    logs the issues and clears the loading flag. *)
Theorem failed_validation_keeps_completion (st : State) (data : value)
  (errors : list ZodIssue) :
  validate data = Failure errors ->
  let st' := fetchCompletion (Json data) st in
  completion st' = completion st /\
  loading st' = false /\
  console st' = console st ++ [ErrorParsingCompletion errors].
Proof.
  intros H st'. unfold st', fetchCompletion. rewrite H.
  repeat split; reflexivity.
Qed.

Lemma failed_validation_keeps_completion_witness :
  let st := setCompletion sampleCompletion initialState in
  let st' := fetchCompletion (Json fingerprinted) st in
  completion st' = Some sampleCompletion /\
  loading st' = false /\
  console st' =
    [ErrorParsingCompletion [mkIssue [KStr "system_fingerprint"] PNull PString]].
Proof.
  apply (failed_validation_keeps_completion
           (setCompletion sampleCompletion initialState) fingerprinted).
  vm_compute. reflexivity.
Defined.

(** * Further properties of the validator *)

(** X1: the issues [validate] reports are exactly the violations of the
    schema found in the document: an issue with path [q], expected type [e]
    and received type [r] is in the list if and only if following [q] leads
    to a datum of type [r] where the schema asks for [e]. *)
Theorem reported_iff_violation (raw : value) (q : list key)
  (e r : ZodParsedType) :
  (exists errors,
     validate raw = Failure errors /\ In (mkIssue q e r) errors) <->
  violation ChatCompletionSchema (Some raw) q e r.
Proof.
  split.
  - intros (errors & Hv & Hin). apply validate_failure_inv in Hv.
    destruct (parse_failure_spec _ _ _ _ Hv) as [_ Hall].
    destruct (Hall _ Hin) as (q' & e' & r' & Heq & Hviol).
    simpl in Heq. inversion Heq; subst. exact Hviol.
  - apply violation_rejected.
Qed.

(** X2: [validate] accepts a document exactly when the document has no
    violation of the schema, and a failure always carries at least one
    issue. *)
Theorem valid_iff_no_violation (raw : value) :
  ((exists c, validate raw = Success c) <->
   ~ (exists q e r, violation ChatCompletionSchema (Some raw) q e r)) /\
  (forall errors, validate raw = Failure errors -> errors <> []).
Proof.
  assert (Hne : forall errors, validate raw = Failure errors -> errors <> []).
  { intros errors Hv. apply validate_failure_inv in Hv.
    now destruct (parse_failure_spec _ _ _ _ Hv). }
  split; [| exact Hne]. split.
  - intros (c & Hc) (q & e & r & Hviol).
    destruct (violation_rejected _ _ _ _ Hviol) as (errors & He & _).
    rewrite He in Hc. discriminate Hc.
  - intro Hno.
    destruct (validate_cases raw) as [(c & Hc & _) | (errors & He & Hp)];
      [eauto |].
    exfalso. destruct (parse_failure_spec _ _ _ _ Hp) as [Hnil Hall].
    destruct errors as [| x rest]; [now apply Hnil |].
    destruct (Hall x (or_introl eq_refl)) as (q & e & r & _ & Hviol).
    apply Hno. eauto.
Qed.

(** X3: issues come in the order of the schema, not of the document: the
    issues of an object are those of its properties, one property after the
    other in the order the shape lists them, and the issues of an array are
    those of its elements from the first to the last. *)
Theorem issues_in_schema_order (p : list key) :
  (forall shape fields,
     issues (parse (z_object shape) p (Some (VObj fields))) =
     List.concat (map (fun ks => issues (parse (snd ks) (p ++ [KStr (fst ks)])
                                          (lookup (fst ks) fields))) shape)) /\
  (forall elem items,
     issues (parse (z_array elem) p (Some (VArr items))) =
     List.concat (mapi (fun v i => issues (parse elem (p ++ [KIdx i]) (Some v)))
                  items)).
Proof.
  split.
  - intros shape fields.
    now rewrite parse_object_eq, issues_wrap, issues_parse_shape.
  - intros elem items.
    now rewrite parse_array_eq, issues_wrap, issues_parse_items.
Qed.

(** X4: an object schema reads only the properties its shape names: two
    objects that agree on those properties get the same result, whatever
    else they hold and in whatever order. *)
Theorem unknown_keys_ignored (shape : list (string * schema)) (p : list key)
  (fs1 fs2 : list (string * value)) :
  (forall k, In k (map fst shape) -> lookup k fs1 = lookup k fs2) ->
  parse (z_object shape) p (Some (VObj fs1)) =
  parse (z_object shape) p (Some (VObj fs2)).
Proof.
  intro H. rewrite !parse_object_eq.
  now rewrite (parse_shape_agree p fs1 fs2 shape H).
Qed.

Lemma unknown_keys_ignored_witness :
  parse MessageSchema []
    (Some (VObj [("refusal", VNull); ("content", VStr "Hi");
                 ("role", VStr "assistant")])) =
  parse MessageSchema []
    (Some (VObj [("role", VStr "assistant"); ("content", VStr "Hi")])).
Proof.
  apply (unknown_keys_ignored (shape_of MessageSchema) []).
  simpl. intros k [<- | [<- | []]]; reflexivity.
Defined.

(** X5: a document that is not an object is rejected with a single issue,
    at the root, that expected an object. *)
Theorem non_object_rejected (raw : value) :
  (forall fields, raw <> VObj fields) ->
  validate raw =
  Failure [mkIssue [] PObject (getParsedType (Some raw))].
Proof.
  intro H. apply validate_failure.
  destruct raw as [| b | f | x | vs | fields]; try reflexivity.
  exfalso. now apply (H fields).
Qed.

Lemma non_object_rejected_witness :
  validate (VStr "Internal Server Error") = Failure [mkIssue [] PObject PString].
Proof.
  apply (non_object_rejected (VStr "Internal Server Error")).
  intros fields. discriminate.
Defined.

(** X6: an object that has none of the seven properties of a completion,
    such as the error body of the API, is rejected with exactly seven
    issues, one per property in the order of the schema, each with its
    expected type and [undefined] received. *)
Theorem bare_object_rejected (fields : list (string * value)) :
  (forall k, In k (shape_keys ChatCompletionSchema) -> lookup k fields = None) ->
  validate (VObj fields) =
  Failure [ mkIssue [KStr "id"] PString PUndefined;
            mkIssue [KStr "object"] PString PUndefined;
            mkIssue [KStr "created"] PNumber PUndefined;
            mkIssue [KStr "model"] PString PUndefined;
            mkIssue [KStr "choices"] PArray PUndefined;
            mkIssue [KStr "usage"] PObject PUndefined;
            mkIssue [KStr "system_fingerprint"] PNull PUndefined ].
Proof.
  intro H. apply validate_failure. unfold safeParse, ChatCompletionSchema.
  rewrite parse_object_eq.
  cbn [parse_shape].
  rewrite !H by (simpl; tauto).
  reflexivity.
Qed.

Lemma bare_object_rejected_witness :
  validate (VObj [("error", VObj [("message", VStr "Incorrect API key")])]) =
  Failure [ mkIssue [KStr "id"] PString PUndefined;
            mkIssue [KStr "object"] PString PUndefined;
            mkIssue [KStr "created"] PNumber PUndefined;
            mkIssue [KStr "model"] PString PUndefined;
            mkIssue [KStr "choices"] PArray PUndefined;
            mkIssue [KStr "usage"] PObject PUndefined;
            mkIssue [KStr "system_fingerprint"] PNull PUndefined ].
Proof.
  apply (bare_object_rejected
           [("error", VObj [("message", VStr "Incorrect API key")])]).
  simpl. intros k [<- | [<- | [<- | [<- | [<- | [<- | [<- | []]]]]]]];
    reflexivity.
Defined.

(** X7: validation neither coerces nor defaults: wherever the schema has a
    string, a number or [null], the validated completion holds the very
    value the document has there. *)
Theorem validated_data_is_the_document (raw : value) (c : ChatCompletion.t)
  (q : list key) (leaf : schema) :
  validate raw = Success c ->
  schema_at ChatCompletionSchema q = Some leaf ->
  is_leaf leaf = true ->
  reach (Some (serialize c)) q = reach (Some raw) q.
Proof.
  intros H Hs Hl. apply validate_success in H.
  exact (parse_keeps_leaves q ChatCompletionSchema [] (Some raw) _ leaf H Hs Hl).
Qed.

Lemma validated_data_is_the_document_witness :
  reach (Some (serialize sampleCompletion))
        [KStr "choices"; KIdx 0; KStr "logprobs"; KStr "content"; KIdx 0;
         KStr "top_logprobs"; KIdx 1; KStr "logprob"] =
  reach (Some sampleResponse)
        [KStr "choices"; KIdx 0; KStr "logprobs"; KStr "content"; KIdx 0;
         KStr "top_logprobs"; KIdx 1; KStr "logprob"].
Proof.
  apply (validated_data_is_the_document sampleResponse sampleCompletion _
           z_number).
  - vm_compute. reflexivity.
  - reflexivity.
  - reflexivity.
Defined.

(** X8: the only thing the schemas ask of a number is that it is not NaN:
    the document of a typed completion is accepted, and gives the completion
    back, exactly when none of its numbers is NaN.  Sign, range,
    integrality and the number of choices are not checked. *)
Theorem accepted_iff_no_nan (c : ChatCompletion.t) :
  validate (serialize c) = Success c <-> no_nan (serialize c) = true.
Proof.
  split.
  - apply validated_no_nan.
  - apply no_nan_revalidates.
Qed.

(** X9: a validated completion is free of NaN and is itself a valid
    document: validating its own document gives it back. *)
Theorem validated_revalidates (raw : value) (c : ChatCompletion.t) :
  validate raw = Success c ->
  no_nan (serialize c) = true /\ validate (serialize c) = Success c.
Proof.
  intro H. pose proof (validated_no_nan raw c H) as Hn.
  split; [exact Hn | now apply no_nan_revalidates].
Qed.

Lemma validated_revalidates_witness :
  no_nan (serialize sampleCompletion) = true /\
  validate (serialize sampleCompletion) = Success sampleCompletion.
Proof.
  apply (validated_revalidates sampleResponse sampleCompletion).
  vm_compute. reflexivity.
Defined.

(** * Further properties of the renderer *)

(** X10: the columns depend on nothing but the text of the emitted tokens of
    the first choice and the text and log-probability of their
    alternatives: further choices, bytes, the emitted token's own
    log-probability, the message and the usage never show. *)
Theorem render_reads_shown_only (c1 c2 : ChatCompletion.t)
  (choice1 choice2 : Choice.t) (rest1 rest2 : list Choice.t) :
  ChatCompletion.choices c1 = choice1 :: rest1 ->
  ChatCompletion.choices c2 = choice2 :: rest2 ->
  map shown (LogProbs.content (Choice.logprobs choice1)) =
  map shown (LogProbs.content (Choice.logprobs choice2)) ->
  renderTokenColumns (Some c1) = renderTokenColumns (Some c2).
Proof.
  intros H1 H2 Hs.
  rewrite (render_first_choice c1 choice1 rest1 H1).
  rewrite (render_first_choice c2 choice2 rest2 H2).
  do 2 f_equal. unfold mapi.
  apply mapi_from_ext with (h := fun a b => shown a = shown b).
  - intros a b i. apply tokenColumn_shown.
  - now apply map_eq_Forall2.
Qed.

Lemma render_reads_shown_only_witness :
  renderTokenColumns (Some sampleCompletion) =
  renderTokenColumns
    (Some (ChatCompletion.mk "other" "chat.completion" 0%float "gpt-4"
             [Choice.mk 3%float (Message.mk "assistant" "Hello")
                (LogProbs.mk
                   [LogProbContent.mk "Hi" (-7)%float []
                      [TopLogProb.mk "Hi" (-0.105)%float None;
                       TopLogProb.mk "Hello" (-2.303)%float
                                     (Some [72%float])]])
                "length";
              sampleChoice]
             (Usage.mk 0%float 0%float 0%float) tt)).
Proof.
  eapply (render_reads_shown_only sampleCompletion _ sampleChoice _ []);
    reflexivity.
Defined.

(** X11: the keys of the rendered elements are their positions: the columns
    are keyed 0, 1, 2, ... and so are the entries of every column. *)
Theorem keys_are_positions (c : ChatCompletion.t) (choice : Choice.t)
  (rest : list Choice.t) :
  ChatCompletion.choices c = choice :: rest ->
  let tokens := LogProbs.content (Choice.logprobs choice) in
  exists cols,
    renderTokenColumns (Some c) = Return (Some cols) /\
    map elementKey cols = map Some (seq 0 (List.length tokens)) /\
    map (fun col => map elementKey (columnAlternatives col)) cols =
    map (fun t => map Some
                    (seq 0 (List.length (LogProbContent.top_logprobs t))))
        tokens.
Proof.
  intros Hc tokens. exists (mapi tokenColumn tokens).
  split; [now apply render_first_choice with (rest := rest) |].
  unfold mapi. split.
  - now apply mapi_from_keys.
  - apply map_mapi_from. intros t i.
    rewrite columnAlternatives_tokenColumn. now apply mapi_from_keys.
Qed.

Lemma keys_are_positions_witness :
  exists cols,
    renderTokenColumns (Some sampleCompletion) = Return (Some cols) /\
    map elementKey cols = [Some 0] /\
    map (fun col => map elementKey (columnAlternatives col)) cols =
    [[Some 0; Some 1]].
Proof.
  apply (keys_are_positions sampleCompletion sampleChoice []). reflexivity.
Defined.

(** X12: a column highlights as many entries as its token has alternatives
    with the token's own text: none when the emitted token is not among
    its alternatives, several when the text occurs several times. *)
Theorem chosen_entries_count (token : LogProbContent.t) (index : nat) :
  List.length (filter isChosen (columnAlternatives (tokenColumn token index))) =
  List.length
    (filter (fun a => String.eqb (TopLogProb.token a)
                                 (LogProbContent.token token))
            (LogProbContent.top_logprobs token)).
Proof.
  rewrite columnAlternatives_tokenColumn. unfold mapi.
  apply filter_mapi_from_length. intros a i.
  apply isChosen_alternativeEntry.
Qed.

(** * Further properties of the handler *)

(** X13: whatever the network answers, [fetchCompletion] leaves the form
    (prompts, temperature, API key, number of top tokens) untouched and
    ends with the loading flag cleared. *)
Theorem handler_frame (r : response) (st : State) :
  let st' := fetchCompletion r st in
  systemPrompt st' = systemPrompt st /\
  userPrompt st' = userPrompt st /\
  temperature st' = temperature st /\
  apiKey st' = apiKey st /\
  topTokens st' = topTokens st /\
  loading st' = false.
Proof.
  destruct r as [e | e | data]; simpl; try (repeat split; reflexivity).
  unfold fetchCompletion. destruct (validate data); repeat split; reflexivity.
Qed.

(** X14: unless the body is a valid document without any choice (which
    the renderer cannot show), a fetch either stores a completion and logs
    nothing, or logs exactly one entry and keeps the held completion; and a
    parsing error is logged only for a body that failed validation, with the
    issues of that validation, never for a rejected fetch or body. *)
Theorem store_or_log (r : response) (st : State) :
  (forall data c, r = Json data -> validate data = Success c ->
                  ChatCompletion.choices c <> []) ->
  let st' := fetchCompletion r st in
  (exists data c,
     r = Json data /\ validate data = Success c /\
     ChatCompletion.choices c <> [] /\
     completion st' = Some c /\ console st' = console st) \/
  (exists entry,
     console st' = console st ++ [entry] /\
     completion st' = completion st /\
     forall errors, entry = ErrorParsingCompletion errors ->
       exists data, r = Json data /\ validate data = Failure errors).
Proof.
  intro Hshown. destruct r as [e | e | data]; simpl.
  - right. exists (ErrorFetchingCompletion e).
    repeat split; try reflexivity. intros errors H. discriminate H.
  - right. exists (ErrorFetchingCompletion e).
    repeat split; try reflexivity. intros errors H. discriminate H.
  - unfold fetchCompletion. destruct (validate data) as [c | errs] eqn:E.
    + left. exists data, c.
      split; [reflexivity |]. split; [exact E |].
      split; [exact (Hshown data c eq_refl E) |].
      split; reflexivity.
    + right. exists (ErrorParsingCompletion errs).
      repeat split; try reflexivity.
      intros errors H. inversion H; subst. exists data. auto.
Qed.

Lemma store_or_log_witness :
  let st' := fetchCompletion (Json sampleResponse) initialState in
  (exists data c,
     Json sampleResponse = Json data /\ validate data = Success c /\
     ChatCompletion.choices c <> [] /\
     completion st' = Some c /\ console st' = console initialState) \/
  (exists entry,
     console st' = console initialState ++ [entry] /\
     completion st' = completion initialState /\
     forall errors, entry = ErrorParsingCompletion errors ->
       exists data, Json sampleResponse = Json data /\
                    validate data = Failure errors).
Proof.
  apply (store_or_log (Json sampleResponse) initialState).
  intros data c Hr Hv. inversion Hr; subst data.
  assert (Hs : validate sampleResponse = Success sampleCompletion)
    by (vm_compute; reflexivity).
  rewrite Hs in Hv. inversion Hv; subst c. discriminate.
Defined.

(** X15: a run of fetches none of which brings a valid document leaves the
    held completion, and with it the rendered columns, as they were. *)
Theorem failures_keep_display (rs : list response) (st : State) :
  forallb (fun r => negb (stores r)) rs = true ->
  completion (run rs st) = completion st /\
  renderTokenColumns (completion (run rs st)) =
  renderTokenColumns (completion st).
Proof.
  intro H. pose proof (run_not_stored rs H st) as Hc.
  split; [exact Hc | now rewrite Hc].
Qed.

Lemma failures_keep_display_witness :
  let st := setCompletion sampleCompletion initialState in
  let rs := [Json fingerprinted; FetchRejected "Failed to fetch";
             Json missingTotalTokens; JsonRejected "Unexpected token"] in
  completion (run rs st) = Some sampleCompletion /\
  renderTokenColumns (completion (run rs st)) =
  renderTokenColumns (Some sampleCompletion).
Proof.
  apply (failures_keep_display
           [Json fingerprinted; FetchRejected "Failed to fetch";
            Json missingTotalTokens; JsonRejected "Unexpected token"]
           (setCompletion sampleCompletion initialState)).
  vm_compute. reflexivity.
Defined.

(** X16: after a run of fetches the held completion is that of the last
    document that validated, whatever came before it and whatever failures
    came after. *)
Theorem last_valid_wins (rs1 rs2 : list response) (data : value)
  (c : ChatCompletion.t) (st : State) :
  validate data = Success c ->
  forallb (fun r => negb (stores r)) rs2 = true ->
  completion (run (rs1 ++ Json data :: rs2) st) = Some c.
Proof.
  intros Hv H2.
  change (rs1 ++ Json data :: rs2) with (rs1 ++ [Json data] ++ rs2).
  rewrite !run_app, (run_not_stored rs2 H2).
  unfold run at 1. simpl. now apply fetchCompletion_stored.
Qed.

Lemma last_valid_wins_witness :
  completion
    (run ([Json (serialize noTokenCompletion)] ++
          Json sampleResponse :: [Json fingerprinted; FetchRejected "offline"])
         initialState) = Some sampleCompletion.
Proof.
  apply (last_valid_wins [Json (serialize noTokenCompletion)]
           [Json fingerprinted; FetchRejected "offline"] sampleResponse
           sampleCompletion initialState); vm_compute; reflexivity.
Defined.

(** X17: the handler keeps the state sound: if the held completion (if any)
    is itself accepted by the schema, it still is after any run of fetches;
    it is so at the start, where none is held. *)
Theorem held_completion_stays_valid (rs : list response) (st : State) :
  holds_valid st -> holds_valid (run rs st).
Proof.
  unfold run. revert st.
  induction rs as [| r rest IH]; intros st H; [exact H |].
  simpl. apply IH. unfold holds_valid.
  destruct (stores r) eqn:Es.
  - destruct r as [e | e | data]; try discriminate Es. simpl in Es.
    destruct (validate data) as [c | errs] eqn:E; [| discriminate Es].
    rewrite (fetchCompletion_stored data c st E).
    apply no_nan_revalidates. now apply (validated_no_nan data).
  - rewrite (fetchCompletion_not_stored r st Es). exact H.
Qed.

Lemma held_completion_stays_valid_witness :
  holds_valid
    (run [Json sampleResponse; Json fingerprinted; FetchRejected "offline"]
         initialState).
Proof.
  apply (held_completion_stays_valid
           [Json sampleResponse; Json fingerprinted; FetchRejected "offline"]
           initialState).
  exact I.
Defined.

(** X18: from the fetched document to the display: once a document has
    validated and been stored, rendering fails exactly when its [choices]
    array is empty, and returns columns otherwise. *)
Theorem stored_document_renders (raw : value) (c : ChatCompletion.t)
  (st : State) :
  validate raw = Success c ->
  let view := renderTokenColumns (completion (fetchCompletion (Json raw) st)) in
  exists items,
    reach (Some raw) [KStr "choices"] = Some (Some (VArr items)) /\
    (items = [] -> view = Throw (TypeError "logprobs")) /\
    (items <> [] -> exists cols, view = Return (Some cols)).
Proof.
  intros H view. unfold view.
  rewrite (fetchCompletion_stored raw c st H).
  destruct (validated_choices raw c H) as (items & Hr & Hlen).
  exists items. split; [exact Hr |].
  unfold renderTokenColumns.
  destruct (ChatCompletion.choices c) as [| choice rest];
    destruct items as [| item items']; try discriminate Hlen; simpl.
  - split; [reflexivity | intro Hne; now exfalso].
  - split; [discriminate | eauto].
Qed.

Lemma stored_document_renders_witness :
  let view :=
    renderTokenColumns
      (completion (fetchCompletion (Json sampleResponse) initialState)) in
  exists items,
    reach (Some sampleResponse) [KStr "choices"] = Some (Some (VArr items)) /\
    (items = [] -> view = Throw (TypeError "logprobs")) /\
    (items <> [] -> exists cols, view = Return (Some cols)).
Proof.
  apply (stored_document_renders sampleResponse sampleCompletion initialState).
  vm_compute. reflexivity.
Defined.
